(** * EV activity-and-charging scheduling: the label-setting DP and its DSSR loop

    Shallow embedding of [src/scheduling.c] and [src/utils.c].

    Conventions of the embedding.
    - A C [int] is a [Z]. The program never relies on wrap-around (signed
      overflow is undefined in C); integer division is [Z.quot], which
      truncates toward zero as C does.
    - A C [double] is a rational [Q] with exact arithmetic: rounding,
      infinities and NaN are not modelled. The cast [(int)d] is
      [int_of_double] (truncation toward zero), [ceil], [fmin], [fmax] are
      the exact functions. Division by zero, undefined or infinite in C, is
      Rocq's [x / 0 == 0]; the theorems that divide assume a non-zero divisor.
    - [sqrt] of [math.h] is not code of the program: it is the one operation
      of the interface [Libm], known only by the two laws the proofs use.
    - A [Group_mem] doubly linked list is the [list Z] of its [g] fields from
      head to tail; [NULL] is [[]].
    - A [Label *] that may be [NULL] is an [option Label]; the chain of
      [previous] pointers is the nesting of the [previous] field. Labels
      point to entries of the global [activities] array, which no function
      writes while labels are alive ([add_memory] runs between two DP runs,
      and only on the [memory] field), so [act] holds the entry itself. *)

From Stdlib Require Import ZArith QArith Qround Qminmax List Bool Lia Lqa.
Import ListNotations.

Local Open Scope Z_scope.

(** ** Data model (include/scheduling.h) *)

Definition Group_mem := list Z.

Record Activity := mkActivity {
  id : Z;
  earliest_start : Z;
  latest_start : Z;
  min_duration : Z;
  max_duration : Z;
  x : Q;
  y : Q;
  group : Z;
  memory : Group_mem;
  des_duration : Z;
  des_start_time : Z;
  charge_mode : Z;
  is_charging : bool;
  is_service_station : bool
}.

(** Modelled from the spec: the type declaration [scheduling.c] is compiled
    against is not in the repository (the header declares [group] only, the
    functions of [scheduling.c] read [activity_type]).  The data model of the
    spec has one attribute, "group (activity_type)". *)
Definition activity_type (a : Activity) : Z := group a.

(** The fields are the ones [scheduling.c] reads and writes. *)
#[local] Unset Elimination Schemes.
Inductive Label := mkLabel {
  act_id : Z;
  time : Z;
  start_time : Z;
  duration : Z;
  deviation_start : Z;
  deviation_dur : Z;
  soc_at_activity_start : Q;
  current_soc : Q;
  delta_soc : Q;
  charge_duration : Z;
  charge_cost : Q;
  utility : Q;
  mem : Group_mem;
  previous : option Label;
  act : Activity
}.
#[local] Set Elimination Schemes.

(** The globals that [set_general_parameters], [set_activities] and the
    caller assign.  The parameter arrays are indexed by activity type. *)
Record Globals := mkGlobals {
  time_interval : Z;
  speed : Q;
  travel_time_penalty : Q;
  horizon : Z;
  num_activities : Z;
  max_num_activities : Z;
  activities : list Activity;
  initial_soc : Q;
  asc_parameters : list Q;
  early_parameters : list Q;
  late_parameters : list Q;
  long_parameters : list Q;
  short_parameters : list Q
}.

(** Reading [arr[i]]; outside the array the C read is undefined, here 0. *)
Definition param (arr : list Q) (i : Z) : Q :=
  if i <? 0 then 0%Q else nth (Z.to_nat i) arr 0%Q.

(** The globals that are initialised where they are defined and never
    assigned. *)
Definition battery_capacity : Q := 60.
Definition soc_full : Q := 1.
Definition soc_threshold : Q := 3 # 10.
Definition energy_consumption_rate : Q := 2 # 10.

Definition slow_charge_power : Q := 7.
Definition fast_charge_power : Q := 22.
Definition rapid_charge_power : Q := 50.

Definition home_slow_charge_price : Q := 26 # 100.
Definition AC_charge_price : Q := 52 # 100.
Definition public_dc_charge_price : Q := 79 # 100.

Definition tou_peak_factor : Q := 3 # 2.
Definition tou_midpeak_factor : Q := 5 # 2.
Definition tou_offpeak_factor : Q := 1.

Definition peak_start : Z := 12.
Definition peak_end : Z := 18.
Definition midpeak1_start : Z := 8.
Definition midpeak1_end : Z := 12.
Definition midpeak2_start : Z := 18.
Definition midpeak2_end : Z := 21.

Definition gamma_charge_work : Q := -359 # 100.
Definition gamma_charge_non_work : Q := -434 # 100.
Definition gamma_charge_home : Q := -334 # 100.
Definition theta_soc : Q := -80.
Definition beta_delta_soc : Q := 25.
Definition beta_charge_cost : Q := -3 # 10.

(** ** C arithmetic on doubles *)

(** [(int)d]: the fractional part is discarded. *)
Definition int_of_double (d : Q) : Z := Z.quot (Qnum d) (Zpos (Qden d)).

(** [(double)n]. *)
Definition double_of_int (n : Z) : Q := inject_Z n.

Definition ceil (d : Q) : Q := inject_Z (Qceiling d).
Definition fmin (a b : Q) : Q := Qmin a b.
Definition fmax (a b : Q) : Q := Qmax a b.

(** [math.h]: the square root, by the laws used. *)
Class Libm := {
  sqrt : Q -> Q;
  sqrt_nonneg : forall d, (0 <= sqrt d)%Q;
  sqrt_zero : forall d, (d == 0)%Q -> (sqrt d == 0)%Q
}.

(** [L->utility = u] *)
Definition set_utility (L : Label) (u : Q) : Label :=
  mkLabel (act_id L) (time L) (start_time L) (duration L) (deviation_start L)
    (deviation_dur L) (soc_at_activity_start L) (current_soc L) (delta_soc L)
    (charge_duration L) (charge_cost L) u (mem L) (previous L) (act L).

(** ** Group memory (utils.c) *)

Fixpoint copyLinkedList (head : Group_mem) : Group_mem :=
  match head with
  | [] => []
  | g :: next => g :: copyLinkedList next
  end.

(** The inner loop of [unionLinkedLists]: is [g] the [g] field of a node of
    [head2]? *)
Fixpoint found_in (g : Z) (head2 : Group_mem) : bool :=
  match head2 with
  | [] => false
  | g2 :: next => if g =? g2 then true else found_in g next
  end.

(** The outer loop of [unionLinkedLists]: the nodes of [head1] whose value
    occurs in [head2], in the order of [head1]. *)
Fixpoint common_nodes (head1 head2 : Group_mem) : Group_mem :=
  match head1 with
  | [] => []
  | g :: next =>
      if found_in g head2 then g :: common_nodes next head2
      else common_nodes next head2
  end.

Definition unionLinkedLists (head1 head2 : Group_mem) (pipi : Z) : Group_mem :=
  match head1, head2 with
  | [], _ => [pipi]
  | _, [] => [pipi]
  | _, _ => common_nodes head1 head2 ++ [pipi]
  end.

(** [add_memory] on the memory list of one activity: a new node at the
    tail, whether or not the value is already there. *)
Definition append_node (m : Group_mem) (c : Z) : Group_mem := m ++ [c].

Definition set_memory (a : Activity) (m : Group_mem) : Activity :=
  mkActivity (id a) (earliest_start a) (latest_start a) (min_duration a)
    (max_duration a) (x a) (y a) (group a) m (des_duration a)
    (des_start_time a) (charge_mode a) (is_charging a) (is_service_station a).

Fixpoint update_nth (n : nat) (acts : list Activity) (c : Z) : list Activity :=
  match acts, n with
  | [], _ => []
  | a :: rest, O => set_memory a (append_node (memory a) c) :: rest
  | a :: rest, S n' => a :: update_nth n' rest c
  end.

(** [add_memory(at, c)] writes [activities[at].memory]; [at] is an array
    index.  An index outside the array is undefined in C and changes nothing
    here. *)
Definition add_memory (acts : list Activity) (at_ : Z) (c : Z) : list Activity :=
  if at_ <? 0 then acts else update_nth (Z.to_nat at_) acts c.

Definition mem_contains (L : Label) (a : Activity) : bool :=
  if group a =? 0 then false
  else found_in (group a) (mem L).

(** The inner loop of [dom_mem_contains] runs to the end of the list and
    remembers a match in [contain]. *)
Fixpoint contain_flag (g : Z) (m : Group_mem) (contain : bool) : bool :=
  match m with
  | [] => contain
  | g2 :: next => contain_flag g next (if g =? g2 then true else contain)
  end.

Fixpoint dom_mem_loop (m1 m2 : Group_mem) : bool :=
  match m1 with
  | [] => true
  | g :: next =>
      if contain_flag g m2 false then dom_mem_loop next m2 else false
  end.

Definition dom_mem_contains (L1 L2 : Label) : bool :=
  dom_mem_loop (mem L1) (mem L2).

(** ** Initialisation and kernels (scheduling.c) *)

Section Kernels.

Context {libm : Libm}.
Variable G : Globals.

(** [initialize_charge_rates]: [time_interval / 60] divides two [int]s and
    the quotient is then converted to [double]. *)
Definition fraction_of_hours_per_interval : Q :=
  double_of_int (Z.quot (time_interval G) 60).

Definition slow_charge_rate : Q :=
  ((slow_charge_power / battery_capacity) * fraction_of_hours_per_interval)%Q.
Definition fast_charge_rate : Q :=
  ((fast_charge_power / battery_capacity) * fraction_of_hours_per_interval)%Q.
Definition rapid_charge_rate : Q :=
  ((rapid_charge_power / battery_capacity) * fraction_of_hours_per_interval)%Q.

Definition create_label (aa : Activity) : Label :=
  {| act_id := 0;
     time := min_duration aa;
     start_time := 0;
     utility := 0;
     deviation_start := 0;
     deviation_dur := 0;
     duration := min_duration aa;
     previous := None;
     act := aa;
     mem := [0];
     soc_at_activity_start := initial_soc G;
     current_soc := initial_soc G;
     charge_duration := 0;
     delta_soc := 0;
     charge_cost := 0 |}.

Definition distance_x (a1 a2 : Activity) : Q :=
  let dx := (x a2 - x a1)%Q in
  let dy := (y a2 - y a1)%Q in
  sqrt (dx * dx + dy * dy)%Q.

Definition travel_time (a1 a2 : Activity) : Z :=
  let dist := distance_x a1 a2 in
  let time := int_of_double (dist / speed G)%Q in
  let time :=
    int_of_double
      (ceil (double_of_int time / double_of_int (time_interval G))
       * double_of_int (time_interval G))%Q in
  let travel_time_horizon := Z.quot time (time_interval G) in
  travel_time_horizon.

Definition energy_consumed_soc (a1 a2 : Activity) : Q :=
  let distance_km := (distance_x a1 a2 / 1000)%Q in
  let energy_kWh := (energy_consumption_rate * distance_km)%Q in
  (energy_kWh / battery_capacity)%Q.

(** [result[0]] is the rate, [result[1]] the price.  A mode without a
    [case] leaves both at their initial 0. *)
Definition get_charge_rate_and_price (a : Activity) : Q * Q :=
  match charge_mode a with
  | 1 => (0%Q, 0%Q)
  | 2 => (slow_charge_rate,
          if activity_type a =? 0 then home_slow_charge_price
          else AC_charge_price)
  | 3 => (fast_charge_rate, AC_charge_price)
  | 4 => (rapid_charge_rate, public_dc_charge_price)
  | _ => (0%Q, 0%Q)
  end.

Definition get_tou_factor (time : Z) : Q :=
  let hour := Z.quot (time * time_interval G) 60 in
  if (peak_start <=? hour) && (hour <? peak_end) then tou_peak_factor
  else if ((midpeak1_start <=? hour) && (hour <? midpeak1_end))
          || ((midpeak2_start <=? hour) && (hour <? midpeak2_end))
       then tou_midpeak_factor
  else tou_offpeak_factor.

(** [activities[i]]; the DP only indexes inside the array. *)
Definition activity_at (i : Z) : option Activity :=
  if i <? 0 then None else nth_error (activities G) (Z.to_nat i).

(** ** Feasibility *)

Definition has_previous (L : Label) : bool :=
  match previous L with Some _ => true | None => false end.

(** [L->previous != NULL && L->previous->act_id == a->id] *)
Definition previous_is (L : Label) (a : Activity) : bool :=
  match previous L with
  | Some p => act_id p =? id a
  | None => false
  end.

(** [L->previous != NULL && L->act->charge_mode != a->charge_mode] *)
Definition charge_mode_differs (L : Label) (a : Activity) : bool :=
  has_previous L && negb (charge_mode (act L) =? charge_mode a).

(** Case 1 of [is_feasible]: [L->act_id == a->id]. *)
Definition feasible_same (L : Label) (a : Activity) : bool :=
  if max_duration a <? duration L + 1 then false
  else if is_charging a && (charge_mode a =? 0) then false
  else if is_charging a && charge_mode_differs L a then false
  else if is_charging a
          && negb (Qle_bool
                     (current_soc L + fst (get_charge_rate_and_price a))
                     soc_full)
       then false
  else if is_service_station a && negb (is_charging a) then false
  else true.

(** Case 2 of [is_feasible]: [L->act_id != a->id].  [dusk] is
    [activities[num_activities - 1]]. *)
Definition feasible_other (L : Label) (a dusk : Activity) : bool :=
  if previous_is L a then false
  else if act_id L =? num_activities G - 1 then false
  else if duration L <? min_duration (act L) then false
  else
    let tt := travel_time (act L) a in
    if horizon G - 1 <=? time L + tt + min_duration a + travel_time a dusk
    then false
    else if time L + tt <? earliest_start a then false
    else if latest_start a <? time L + tt then false
    else if mem_contains L a then false
    else
      let soc_after_travel :=
        (current_soc L - energy_consumed_soc (act L) a)%Q in
      if negb (Qle_bool 0 soc_after_travel) then false
      else if is_charging a && (charge_mode a =? 0) then false
      else if is_service_station a && negb (is_charging a) then false
      else true.

(** [is_feasible(L, a)], 1 as [true].  [activities[num_activities - 1]] is
    read only in case 2; outside the array the read is undefined in C and
    the answer is [false] here. *)
Definition is_feasible (L : option Label) (a : Activity) : bool :=
  match L with
  | None => false
  | Some L =>
      if negb (act_id L =? 0) && (id a =? 0) then false
      else if act_id L =? id a then feasible_same L a
      else
        match activity_at (num_activities G - 1) with
        | Some dusk => feasible_other L a dusk
        | None => false
        end
  end.

(** ** Dominance *)

Definition dominates (L1 L2 : option Label) : Z :=
  match L1, L2 with
  | None, _ => 0
  | Some _, None => 1
  | Some L1, Some L2 =>
      if negb (act_id L1 =? act_id L2) then 0
      else if Qle_bool (utility L2) (utility L1)
              && dom_mem_contains L2 L1
              && (time L1 <=? time L2)
           then 2
      else 0
  end.

(** ** Utility *)

(** The duration terms of the activity that has just finished. *)
Definition duration_penalty (previous_L : Label) : Q :=
  let previous_act := act previous_L in
  let previous_activity_type := activity_type previous_act in
  if negb (previous_activity_type =? 0) && negb (is_service_station previous_act)
  then
    (param (short_parameters G) previous_activity_type
       * double_of_int (time_interval G)
       * fmax 0 (double_of_int (des_duration previous_act - duration previous_L))
     + param (long_parameters G) previous_activity_type
       * double_of_int (time_interval G)
       * fmax 0 (double_of_int (duration previous_L - des_duration previous_act)))%Q
  else 0%Q.

(** The start-time terms of the activity that begins. *)
Definition start_penalty (L : Label) : Q :=
  let a := act L in
  if negb (activity_type a =? 0) && negb (is_service_station a)
  then
    (param (early_parameters G) (activity_type a)
       * double_of_int (time_interval G)
       * fmax 0 (double_of_int (des_start_time a - start_time L))
     + param (late_parameters G) (activity_type a)
       * double_of_int (time_interval G)
       * fmax 0 (double_of_int (start_time L - des_start_time a)))%Q
  else 0%Q.

Definition gamma_charge (previous_activity_type : Z) : Q :=
  if previous_activity_type =? 6 then gamma_charge_work
  else if previous_activity_type =? 0 then gamma_charge_home
  else gamma_charge_non_work.

(** [interval_charge_cost], or the whole [charge_cost] of a label without
    predecessor. *)
Definition interval_charge_cost (previous_L : Label) : Q :=
  match previous previous_L with
  | Some before => (charge_cost previous_L - charge_cost before)%Q
  | None => charge_cost previous_L
  end.

(** The terms added when the finished activity has [is_charging]. *)
Definition charging_terms (previous_L : Label) : Q :=
  if is_charging (act previous_L) then
    (gamma_charge (activity_type (act previous_L))
     + theta_soc * fmax 0 (soc_threshold - soc_at_activity_start previous_L)
     + beta_delta_soc * (current_soc previous_L - soc_at_activity_start previous_L)
     + beta_charge_cost * interval_charge_cost previous_L)%Q
  else 0%Q.

(** The body of [update_utility(L)], with [previous_L] for [L->previous]. *)
Definition utility_after (L previous_L : Label) : Q :=
  (utility previous_L
   + param (asc_parameters G) (activity_type (act L))
   + travel_time_penalty G
     * double_of_int (travel_time (act previous_L) (act L))
   + duration_penalty previous_L
   + start_penalty L
   + charging_terms previous_L)%Q.

(** [update_utility(L)] dereferences [L->previous]. *)
Definition update_utility (L : Label) : option Q :=
  match previous L with
  | Some previous_L => Some (utility_after L previous_L)
  | None => None
  end.

(** ** Label transition *)

(** One interval of charging: the new [delta_soc] and the cost of the
    interval that starts at slot [t]. *)
Definition charge_step (a : Activity) (soc : Q) (t : Z) : Q * Q :=
  let '(charge_rate, charge_price) := get_charge_rate_and_price a in
  let delta := fmin (soc_full - soc) charge_rate in
  let tou_factor := get_tou_factor t in
  let energy_charged_kwh := (delta * battery_capacity)%Q in
  let interval_cost := (charge_price * tou_factor * energy_charged_kwh)%Q in
  (delta, interval_cost).

Definition update_label_from_activity (current_label : Label) (a : Activity)
  : Label :=
  if negb (id a =? act_id current_label) then
    let start_time' := time current_label + travel_time (act current_label) a in
    let mem' :=
      unionLinkedLists (mem current_label) (memory a) (activity_type a) in
    let duration' :=
      if id a =? num_activities G - 1 then horizon G - start_time' - 1
      else min_duration a in
    let time' :=
      if id a =? num_activities G - 1 then horizon G - 1
      else start_time' + duration' in
    let soc_consumed := energy_consumed_soc (act current_label) a in
    let soc_start := (current_soc current_label - soc_consumed)%Q in
    let '(delta, interval_cost) := charge_step a soc_start start_time' in
    let current_soc' :=
      if is_charging a then (soc_start + delta)%Q else soc_start in
    let delta_soc' := if is_charging a then delta else 0%Q in
    let charge_duration' := if is_charging a then time_interval G else 0 in
    let charge_cost' :=
      if is_charging a then (charge_cost current_label + interval_cost)%Q
      else charge_cost current_label in
    let deviation_start' :=
      if negb (is_service_station a) && negb (activity_type a =? 0)
      then deviation_start current_label
           + Z.abs (start_time' - des_start_time a)
      else deviation_start current_label in
    let deviation_dur' :=
      if negb (is_service_station (act current_label))
         && negb (activity_type (act current_label) =? 0)
      then deviation_dur current_label
           + Z.abs (duration current_label - des_duration (act current_label))
      else deviation_dur current_label in
    let new_label :=
      {| act_id := id a;
         time := time';
         start_time := start_time';
         duration := duration';
         deviation_start := deviation_start';
         deviation_dur := deviation_dur';
         soc_at_activity_start := soc_start;
         current_soc := current_soc';
         delta_soc := delta_soc';
         charge_duration := charge_duration';
         charge_cost := charge_cost';
         utility := 0 (* assigned below, by [update_utility] *);
         mem := mem';
         previous := Some current_label;
         act := a |} in
    set_utility new_label (utility_after new_label current_label)
  else
    let time' := time current_label + time_interval G in
    let charging :=
      is_charging a && negb (Qle_bool soc_full (current_soc current_label)) in
    let '(delta, interval_cost) :=
      charge_step a (current_soc current_label) time' in
    {| act_id := id a;
       time := time';
       start_time := start_time current_label;
       duration := duration current_label + time_interval G;
       deviation_start := deviation_start current_label;
       deviation_dur := deviation_dur current_label;
       soc_at_activity_start := soc_at_activity_start current_label;
       current_soc :=
         if charging then (current_soc current_label + delta)%Q
         else current_soc current_label;
       delta_soc := if charging then delta else 0%Q;
       charge_duration :=
         if charging then charge_duration current_label + time_interval G
         else charge_duration current_label;
       charge_cost :=
         if charging then (charge_cost current_label + interval_cost)%Q
         else charge_cost current_label;
       utility := utility current_label;
       mem := copyLinkedList (mem current_label);
       previous := Some current_label;
       act := a |}.

End Kernels.

(** ** Best label and DSSR *)

(** A bucket cell is the list of the labels of its nodes; a cell whose only
    node has no label is [[]]. *)
Definition L_list := list Label.

(** [find_best]: [max] starts at minus infinity ([None]); a later label
    replaces the best one only when strictly better. *)
Fixpoint find_best_loop (li : L_list) (max : option Q) (bestL : option Label)
  : option Label :=
  match li with
  | [] => bestL
  | element :: next =>
      let better :=
        match max with
        | None => true
        | Some m => negb (Qle_bool (utility element) m)
        end in
      if better then find_best_loop next (Some (utility element)) (Some element)
      else find_best_loop next max bestL
  end.

Definition find_best (B : L_list) : option Label := find_best_loop B None None.

Section DSSR.

Variable G : Globals.

(** [p->act_id == num_activities - 1 || p->act_id == num_activities - 2] *)
Definition is_last_activity (p : Label) : bool :=
  (act_id p =? num_activities G - 1) || (act_id p =? num_activities G - 2).

(** [while (p != NULL && p->act_id == c) p = p->previous;] *)
Fixpoint skip_activity (c : Z) (p : Label) : option Label :=
  if act_id p =? c then
    match previous p with
    | Some q => skip_activity c q
    | None => None
    end
  else Some p.

(** The loop on [p2] that looks for an earlier label of the group [g]. *)
Fixpoint group_seen_before (g : Z) (p2 : Label) : bool :=
  if activity_type (act p2) =? g then true
  else
    match previous p2 with
    | Some q => group_seen_before g q
    | None => false
    end.

(** What the first loop of [DSSR] leaves: no cycle; a cycle with
    [c_activity], [group_activity] and the value of [p1]; or the read of
    [p1->previous] with [p1 == NULL], after the labels of the last two
    activities have been skipped down to the end of the chain. *)
Inductive scan_result :=
| NoCycle
| Cycle (c_activity group_activity : Z) (p1 : option Label)
| NullDereference.

(** The first loop of [DSSR], one label per call: a label of the last two
    activities is skipped (the inner [while] on [p1]); any other label is
    examined, and the loop goes on from its predecessor. *)
Fixpoint find_cycle (p1 : Label) : scan_result :=
  if is_last_activity p1 then
    match previous p1 with
    | Some q => find_cycle q
    | None => NullDereference
    end
  else
    let cycle :=
      match skip_activity (act_id p1) p1 with
      | Some p2 => group_seen_before (activity_type (act p1)) p2
      | None => false
      end in
    if cycle then Cycle (act_id p1) (activity_type (act p1)) (previous p1)
    else
      match previous p1 with
      | Some q => find_cycle q
      | None => NoCycle
      end.

(** [while (p3 != NULL && p3->act_id != c_activity) { add_memory(...); ... }] *)
Fixpoint add_memory_loop (c_activity group_activity : Z) (p3 : Label)
  (acts : list Activity) : list Activity :=
  if act_id p3 =? c_activity then acts
  else
    let acts' := add_memory acts (act_id p3) group_activity in
    match previous p3 with
    | Some q => add_memory_loop c_activity group_activity q acts'
    | None => acts'
    end.

(** [DSSR(L)]: the returned [cycle] and the [activities] array afterwards;
    [None] when the function dereferences [NULL]. *)
Definition DSSR (L : option Label) : option (Z * list Activity) :=
  match L with
  | None => Some (0, activities G)
  | Some L =>
      match find_cycle L with
      | NoCycle => Some (0, activities G)
      | NullDereference => None
      | Cycle c_activity group_activity p1 =>
          let p3 :=
            match p1 with
            | Some p => skip_activity c_activity p
            | None => None
            end in
          Some (1, match p3 with
                   | Some p => add_memory_loop c_activity group_activity p
                                 (activities G)
                   | None => activities G
                   end)
      end
  end.

End DSSR.

(** ** The label-setting DP and the outer loop (scheduling.c, main.c)

    A run that leaves defined C (a bucket index outside the array, a read
    of a freed list node) has no result here: [None]. *)

Section DP.

Context {libm : Libm}.
Variable G : Globals.

(** A node of a bucket cell: its label, and whether its [previous] pointer
    is set.  [DP] appends nodes with a [NULL] [previous]; [remove_label]
    sets the pointer of a node when it unlinks the node before it. *)
Definition node : Type := Label * bool.
Definition cell := list node.

(** [bucket[t][i]] *)
Definition Bucket := Z -> Z -> cell.

Definition create_bucket : Bucket := fun _ _ => [].

Definition in_bucket (t i : Z) : bool :=
  (0 <=? t) && (t <? horizon G) && (0 <=? i) && (i <? max_num_activities G).

Definition set_cell (b : Bucket) (t i : Z) (c : cell) : Bucket :=
  fun t' i' => if (t' =? t) && (i' =? i) then c else b t' i'.

Definition relink (c : cell) (relinked : bool) : cell :=
  match c with
  | (e, p) :: rest => (e, p || relinked) :: rest
  | [] => []
  end.

(** The loop of [DP] on [list_1], from the node that holds [element], and
    the insertion of [L1] after it; the result is the cell from this node on.
    [relinked]: [remove_label] has set the [previous] pointer of the first
    node of [next].

    When [L1] dominates [element], [remove_label] runs:
    - [previous] and [next] set: the node is unlinked, the loop goes on at
      the next node;
    - [previous] set, no [next]: the node is freed and [NULL] returned; the
      loop ends and [list_2], the freed node, is read: [None];
    - no [previous], [next] set: the node takes the label of the next node,
      which is freed, and is examined again;
    - neither: the node loses its label, the loop ends and [L1] is stored in
      the node. *)
Fixpoint dominance_pass (L1 element : Label) (has_prev : bool) (next : cell)
  (relinked : bool) : option cell :=
  if negb (dominates (Some L1) (Some element) =? 0) then
    match next with
    | [] => if has_prev then None else Some [(L1, false)]
    | (e2, _) :: rest =>
        if has_prev then dominance_pass L1 e2 true rest false
        else dominance_pass L1 e2 false rest true
    end
  else if negb (dominates (Some element) (Some L1) =? 0) then
    Some ((element, has_prev) :: relink next relinked)
  else
    match next with
    | [] => Some [(element, has_prev); (L1, false)]
    | (e2, p2) :: rest =>
        match dominance_pass L1 e2 (p2 || relinked) rest false with
        | Some c => Some ((element, has_prev) :: c)
        | None => None
        end
    end.

(** A cell without label: [L1] dominates [NULL], and is stored in the head
    node. *)
Definition insert_label (L1 : Label) (c : cell) : option cell :=
  match c with
  | [] => Some [(L1, false)]
  | (element, has_prev) :: next => dominance_pass L1 element has_prev next false
  end.

(** The loop on [a1] for the label [L] of the cell [(h, act_index)].  The
    scan of a cell holds a pointer into its list: an insertion into the cell
    that is being scanned is not modelled ([None]); it needs a successor
    with the time of its predecessor. *)
Fixpoint extend_loop (L : Label) (h act_index : Z) (acts : list Activity)
  (a1 : Z) (b : Bucket) : option Bucket :=
  match acts with
  | [] => Some b
  | a :: rest =>
      if is_feasible G (Some L) a then
        let L1 := update_label_from_activity G L a in
        if in_bucket (time L1) a1
           && negb ((time L1 =? h) && (a1 =? act_index))
        then
          match insert_label L1 (b (time L1) a1) with
          | Some c =>
              extend_loop L h act_index rest (a1 + 1)
                (set_cell b (time L1) a1 c)
          | None => None
          end
        else None
      else extend_loop L h act_index rest (a1 + 1) b
  end.

(** [activities[0 .. num_activities - 1]] *)
Definition scanned_activities : list Activity :=
  firstn (Z.to_nat (num_activities G)) (activities G).

Fixpoint scan_cell (labels : list Label) (h act_index : Z) (b : Bucket)
  : option Bucket :=
  match labels with
  | [] => Some b
  | L :: rest =>
      match extend_loop L h act_index scanned_activities 0 b with
      | Some b' => scan_cell rest h act_index b'
      | None => None
      end
  end.

Fixpoint activity_loop (n : nat) (act_index h : Z) (b : Bucket)
  : option Bucket :=
  match n with
  | O => Some b
  | S n' =>
      match scan_cell (map fst (b h act_index)) h act_index b with
      | Some b' => activity_loop n' (act_index + 1) h b'
      | None => None
      end
  end.

Fixpoint time_loop (n : nat) (h : Z) (b : Bucket) : option Bucket :=
  match n with
  | O => Some b
  | S n' =>
      match activity_loop (Z.to_nat (num_activities G)) 0 h b with
      | Some b' => time_loop n' (h + 1) b'
      | None => None
      end
  end.

Definition DP : option Bucket :=
  match activities G with
  | [] => None
  | dawn :: _ =>
      let ll := create_label G dawn in
      if in_bucket (time ll) 0
         && (num_activities G <=? Z.of_nat (length (activities G)))
         && (num_activities G <=? max_num_activities G)
      then
        time_loop (Z.to_nat (horizon G - 1 - time ll)) (time ll)
          (set_cell create_bucket (time ll) 0 [(ll, false)])
      else None
  end.

(** [find_best(&bucket[horizon - 1][max_num_activities - 1], 0)] *)
Definition best_of (b : Bucket) : option Label :=
  find_best (map fst (b (horizon G - 1) (max_num_activities G - 1))).

End DP.

Definition with_activities (G : Globals) (acts : list Activity) : Globals :=
  mkGlobals (time_interval G) (speed G) (travel_time_penalty G) (horizon G)
    (num_activities G) (max_num_activities G) acts (initial_soc G)
    (asc_parameters G) (early_parameters G) (late_parameters G)
    (long_parameters G) (short_parameters G).

(** What [main] has reached after a number of runs of the DP. *)
Inductive solve_state :=
| Converged (final_schedule : option Label) (DSSR_count : Z)
| Looping (G : Globals) (DSSR_count : Z)
| Undefined.

(** The loop of [main], for at most [S fuel] runs of the DP: each run is
    followed by [DSSR] on the best label of the last cell, and a reported
    cycle starts the next run on the [activities] that [DSSR] has left. *)
Fixpoint solve {libm : Libm} (fuel : nat) (G : Globals) (DSSR_count : Z)
  : solve_state :=
  match DP G with
  | None => Undefined
  | Some b =>
      if in_bucket G (horizon G - 1) (max_num_activities G - 1) then
        match DSSR G (best_of G b) with
        | None => Undefined
        | Some (cycle, acts) =>
            if cycle =? 0 then Converged (best_of G b) DSSR_count
            else
              match fuel with
              | O => Looping (with_activities G acts) (DSSR_count + 1)
              | S fuel' =>
                  solve fuel' (with_activities G acts) (DSSR_count + 1)
              end
        end
      else Undefined
  end.

(** ** The earlier variant (scheduling_CS.c)

    The file at the root of the repository keeps an earlier [dominates],
    which prefers the smaller utility. *)

Module Legacy.

Definition dominates (L1 L2 : option Label) : Z :=
  match L1, L2 with
  | None, _ => 0
  | Some _, None => 1
  | Some L1, Some L2 =>
      if negb (act_id L1 =? act_id L2) then 0
      else if Qle_bool (utility L1) (utility L2)
              && dom_mem_contains L2 L1
              && (time L1 <=? time L2)
           then 2
      else 0
  end.

End Legacy.

(** ** The labels of a run *)

(** The labels that a run of the DP can build: the seed label, and the
    successor of a label at an activity of the array for which
    [is_feasible] has answered 1. *)
Inductive reachable {libm : Libm} (G : Globals) : Label -> Prop :=
| reachable_seed (dawn : Activity) :
    nth_error (activities G) 0 = Some dawn ->
    reachable G (create_label G dawn)
| reachable_step (L : Label) (a : Activity) :
    reachable G L ->
    In a (activities G) ->
    is_feasible G (Some L) a = true ->
    reachable G (update_label_from_activity G L a).

(** Every label of the bucket is a label of the run. *)
Definition bucket_reachable {libm : Libm} (G : Globals) (b : Bucket) : Prop :=
  forall t i L, In L (map fst (b t i)) -> reachable G L.

(** One turn of the loop of [main]: a run of the DP, then [DSSR] on the
    best label of the last cell. *)
Definition DP_then_DSSR {libm : Libm} (G : Globals)
  : option (Z * list Activity) :=
  match DP G with
  | Some b => DSSR G (best_of G b)
  | None => None
  end.

(** The activities of a label and its predecessors, last first. *)
Fixpoint schedule (L : Label) : list Z :=
  act_id L :: match previous L with
              | Some p => schedule p
              | None => []
              end.

(** Two arrays of activities have the same forbidden groups, as sets. *)
Definition same_forbidden_groups (acts acts' : list Activity) : Prop :=
  Forall2 (fun a a' => forall g, In g (memory a) <-> In g (memory a'))
    acts acts'.

(** ** Instances for the examples *)

(** A square root that is exact on the squares of the integers, the only
    arguments the examples give it: the integer square root of the integer
    part. *)
Definition isqrt (d : Q) : Q := inject_Z (Z.sqrt (Qfloor d)).

Definition isqrt_libm : Libm.
Proof.
  refine {| sqrt := isqrt |}.
  - intros d. unfold isqrt. rewrite <- (Qle_bool_iff 0). unfold Qle_bool.
    simpl. apply Z.leb_le. rewrite Z.mul_1_r. apply Z.sqrt_nonneg.
  - intros d H. unfold isqrt. rewrite (Qfloor_comp _ _ H). reflexivity.
Defined.

Module Examples.

(** The parameters of [setup_default_parameters] in the test suite, with a
    speed of 500 metres per minute. *)
Definition test_globals (acts : list Activity) : Globals :=
  {| time_interval := 5;
     speed := 500;
     travel_time_penalty := 1 # 10;
     horizon := 288;
     num_activities := Z.of_nat (length acts);
     max_num_activities := Z.of_nat (length acts);
     activities := acts;
     initial_soc := 1;
     asc_parameters := [0; 174 # 10; 161 # 10; 676 # 100; 12; 113 # 10; 106 # 10; 0; 0]%Q;
     early_parameters := [0; -256 # 100; -173 # 100; -255 # 100; -31 # 1000; -251 # 100; -137 # 100; 0; 0]%Q;
     late_parameters := [0; -154 # 100; -342 # 100; -578 # 1000; -158 # 100; -993 # 1000; -79 # 100; 0; 0]%Q;
     long_parameters := [0; -783 # 10000; -597 # 1000; -267 # 10000; -209 # 1000; -133 # 1000; -201 # 1000; 0; 0]%Q;
     short_parameters := [0; -783 # 1000; -563 # 100; 134 # 1000; -764 # 100000; 528 # 1000; -478 # 100; 0; 0]%Q |}.

(** [create_test_activity] of the test suite. *)
Definition create_test_activity (id : Z) (x y : Q) (group earliest_start
  latest_start min_duration max_duration des_start_time des_duration : Z)
  : Activity :=
  {| id := id; x := x; y := y; group := group;
     earliest_start := earliest_start; latest_start := latest_start;
     min_duration := min_duration; max_duration := max_duration;
     des_start_time := des_start_time; des_duration := des_duration;
     charge_mode := 0; is_charging := false; is_service_station := false;
     memory := [] |}.

Definition dawn : Activity := create_test_activity 0 0 0 0 0 0 1 286 0 0.
Definition work : Activity := create_test_activity 1 0 0 6 0 276 10 144 98 80.
Definition dusk : Activity := create_test_activity 2 0 0 0 0 287 1 288 0 0.

Definition dawn_work_dusk : Globals := test_globals [dawn; work; dusk].

Definition seed : Label := create_label dawn_work_dusk dawn.

(** Hourly slots on a horizon of 288 slots, half a battery at dawn. *)
Definition hourly_globals (acts : list Activity) : Globals :=
  {| time_interval := 60;
     speed := 500;
     travel_time_penalty := 1 # 10;
     horizon := 288;
     num_activities := Z.of_nat (length acts);
     max_num_activities := Z.of_nat (length acts);
     activities := acts;
     initial_soc := 1 # 2;
     asc_parameters := asc_parameters (test_globals acts);
     early_parameters := early_parameters (test_globals acts);
     late_parameters := late_parameters (test_globals acts);
     long_parameters := long_parameters (test_globals acts);
     short_parameters := short_parameters (test_globals acts) |}.

(** The work activity with a charger: [charge_mode] 2, [is_charging] 1. *)
Definition work_charging : Activity :=
  {| id := 1; x := 0; y := 0; group := 6;
     earliest_start := 0; latest_start := 276;
     min_duration := 1; max_duration := 144;
     des_start_time := 98; des_duration := 80;
     charge_mode := 2; is_charging := true; is_service_station := false;
     memory := [] |}.

Definition dawn_charge_dusk : Globals :=
  hourly_globals [dawn; work_charging; dusk].

(** Dawn, two labels at the charger, dusk. *)
Definition at_dawn : Label := create_label dawn_charge_dusk dawn.
Definition charging_1 : Label :=
  update_label_from_activity (libm := isqrt_libm) dawn_charge_dusk at_dawn
    work_charging.
Definition charging_2 : Label :=
  update_label_from_activity (libm := isqrt_libm) dawn_charge_dusk charging_1
    work_charging.
Definition at_dusk : Label :=
  update_label_from_activity (libm := isqrt_libm) dawn_charge_dusk charging_2
    dusk.

(** A home activity with a slow charger, as the header numbers the modes:
    [charge_mode] 1. *)
Definition home_slow : Activity :=
  {| id := 1; x := 0; y := 0; group := 0;
     earliest_start := 0; latest_start := 288;
     min_duration := 2; max_duration := 288;
     des_start_time := 0; des_duration := 0;
     charge_mode := 1; is_charging := true; is_service_station := false;
     memory := [] |}.

(** The same activity in [charge_mode] 2. *)
Definition home_mode_2 : Activity :=
  {| id := 1; x := 0; y := 0; group := 0;
     earliest_start := 0; latest_start := 288;
     min_duration := 2; max_duration := 288;
     des_start_time := 0; des_duration := 0;
     charge_mode := 2; is_charging := true; is_service_station := false;
     memory := [] |}.

(** An activity 250 metres from dawn: half a minute at 500 metres per
    minute. *)
Definition corner_shop : Activity :=
  create_test_activity 1 150 200 5 0 276 2 120 200 15.

(** A day of 8 slots of one minute, everything at one place: dawn, a home
    activity, a service station that does not charge, dusk.  Home has a
    positive attraction.  [m] is the memory of dawn, empty at the start of a
    solve. *)
Definition day_dawn (m : Group_mem) : Activity :=
  {| id := 0; x := 0; y := 0; group := 0;
     earliest_start := 0; latest_start := 0;
     min_duration := 1; max_duration := 8;
     des_start_time := 0; des_duration := 0;
     charge_mode := 0; is_charging := false; is_service_station := false;
     memory := m |}.

Definition day_home : Activity :=
  {| id := 1; x := 0; y := 0; group := 0;
     earliest_start := 0; latest_start := 8;
     min_duration := 1; max_duration := 8;
     des_start_time := 0; des_duration := 0;
     charge_mode := 0; is_charging := false; is_service_station := false;
     memory := [] |}.

Definition day_station : Activity :=
  {| id := 2; x := 0; y := 0; group := 7;
     earliest_start := 0; latest_start := 8;
     min_duration := 1; max_duration := 8;
     des_start_time := 0; des_duration := 0;
     charge_mode := 0; is_charging := false; is_service_station := true;
     memory := [] |}.

Definition day_dusk : Activity :=
  {| id := 3; x := 0; y := 0; group := 0;
     earliest_start := 0; latest_start := 7;
     min_duration := 1; max_duration := 8;
     des_start_time := 0; des_duration := 0;
     charge_mode := 0; is_charging := false; is_service_station := false;
     memory := [] |}.

Definition home_day (m : Group_mem) : Globals :=
  {| time_interval := 1;
     speed := 500;
     travel_time_penalty := 1 # 10;
     horizon := 8;
     num_activities := 4;
     max_num_activities := 4;
     activities := [day_dawn m; day_home; day_station; day_dusk];
     initial_soc := 1;
     asc_parameters := [1; 0; 0; 0; 0; 0; 0; 0; 0]%Q;
     early_parameters := [];
     late_parameters := [];
     long_parameters := [];
     short_parameters := [] |}.

(** The schedule dawn, home, dusk of the day with a home activity. *)
Definition day_seed : Label := create_label (home_day []) (day_dawn []).
Definition day_at_home : Label :=
  update_label_from_activity (libm := isqrt_libm) (home_day []) day_seed
    day_home.
Definition day_end : Label :=
  update_label_from_activity (libm := isqrt_libm) (home_day []) day_at_home
    day_dusk.

(** The smallest problem: dawn and dusk only. *)
Definition dusk_1 : Activity := create_test_activity 1 0 0 0 0 287 1 288 0 0.
Definition dawn_dusk : Globals := test_globals [dawn; dusk_1].
Definition dawn_then_dusk : Label :=
  update_label_from_activity (libm := isqrt_libm) dawn_dusk
    (create_label dawn_dusk dawn) dusk_1.

(** The same day with a work activity in the place of home. *)
Definition day_work : Activity :=
  {| id := 1; x := 0; y := 0; group := 6;
     earliest_start := 0; latest_start := 8;
     min_duration := 1; max_duration := 8;
     des_start_time := 0; des_duration := 0;
     charge_mode := 0; is_charging := false; is_service_station := false;
     memory := [] |}.

Definition work_day : Globals :=
  {| time_interval := 1;
     speed := 500;
     travel_time_penalty := 1 # 10;
     horizon := 8;
     num_activities := 4;
     max_num_activities := 4;
     activities := [day_dawn []; day_work; day_station; day_dusk];
     initial_soc := 1;
     asc_parameters := [1; 0; 0; 0; 0; 0; 0; 0; 0]%Q;
     early_parameters := [];
     late_parameters := [];
     long_parameters := [];
     short_parameters := [] |}.

Definition work_day_seed : Label := create_label work_day (day_dawn []).
Definition work_day_at_work : Label :=
  update_label_from_activity (libm := isqrt_libm) work_day work_day_seed
    day_work.
Definition work_day_end : Label :=
  update_label_from_activity (libm := isqrt_libm) work_day work_day_at_work
    day_dusk.

(** Labels at dawn with a given utility and memory, all of the same
    activity and time. *)
Definition at_dawn_with (u : Q) (m : Group_mem) : Label :=
  {| act_id := 0; time := 1; start_time := 0; duration := 1;
     deviation_start := 0; deviation_dur := 0;
     soc_at_activity_start := 1; current_soc := 1; delta_soc := 0;
     charge_duration := 0; charge_cost := 0; utility := u; mem := m;
     previous := None; act := dawn |}.

End Examples.

(** ** The statements of the specification that are compared with the code *)

(** The four conditions of the dominance rule. *)
Definition dominance_conditions (L1 L2 : Label) : Prop :=
  act_id L1 = act_id L2
  /\ incl (mem L2) (mem L1)
  /\ (utility L2 <= utility L1)%Q
  /\ time L1 <= time L2.

(** The charging table of the specification (section 4.2): mode, group and
    interval in minutes give the rate per interval and the price, in exact
    arithmetic. *)
Definition spec_charge_profile (mode group interval : Z) : Q * Q :=
  let hours := (inject_Z interval / 60)%Q in
  match mode with
  | 1 => ((7 / battery_capacity * hours)%Q,
          if group =? 0 then home_slow_charge_price else AC_charge_price)
  | 2 => ((22 / battery_capacity * hours)%Q, AC_charge_price)
  | 3 => ((50 / battery_capacity * hours)%Q, public_dc_charge_price)
  | _ => (0%Q, 0%Q)
  end.

(** The cumulative charge cost when the activity of [L] began: the cost of
    the last label before the labels of this activity, 0 at the start of
    the chain. *)
Fixpoint spec_cost_at_activity_start (c : Z) (L : Label) : Q :=
  match previous L with
  | None => 0%Q
  | Some p =>
      if act_id p =? c then spec_cost_at_activity_start c p
      else charge_cost p
  end.

(** The charge cost accumulated during the whole activity that ends with
    [L] (section 4.3). *)
Definition spec_activity_charge_cost (L : Label) : Q :=
  (charge_cost L - spec_cost_at_activity_start (act_id L) L)%Q.

(** The travel time of the specification (section 4.1): the raw minutes
    [distance / speed] rounded up to a whole number of intervals. *)
Definition spec_travel_intervals {libm : Libm} (G : Globals)
  (a b : Activity) : Z :=
  Qceiling (distance_x a b / speed G / inject_Z (time_interval G))%Q.

(** ** [set_general_parameters] *)

(** [for (i = 0; i < 5; i++) asc_parameters[i] = asc[i];]: the five
    entries that the loop copies.  A caller's array with fewer entries is
    read outside its bounds, undefined in C, 0 here. *)
Definition copy_parameters (arr : list Q) : list Q :=
  map (fun i => nth i arr 0%Q) [0; 1; 2; 3; 4]%nat.

(** The globals after [set_general_parameters]; the charge rates follow
    from [time_interval], as [initialize_charge_rates] computes them. *)
Definition set_general_parameters (G : Globals) (pyhorizon : Z) (pyspeed : Q)
  (pytravel_time_penalty : Q) (pytime_interval : Z)
  (asc early late longp shortp : list Q) : Globals :=
  {| time_interval := pytime_interval;
     speed := pyspeed;
     travel_time_penalty := pytravel_time_penalty;
     horizon := pyhorizon;
     num_activities := num_activities G;
     max_num_activities := max_num_activities G;
     activities := activities G;
     initial_soc := initial_soc G;
     asc_parameters := copy_parameters asc;
     early_parameters := copy_parameters early;
     late_parameters := copy_parameters late;
     long_parameters := copy_parameters longp;
     short_parameters := copy_parameters shortp |}.

(** [set_activities] *)
Definition set_activities (G : Globals) (activities_data : list Activity)
  (pynum_activities : Z) : Globals :=
  {| time_interval := time_interval G;
     speed := speed G;
     travel_time_penalty := travel_time_penalty G;
     horizon := horizon G;
     num_activities := pynum_activities;
     max_num_activities := max_num_activities G;
     activities := activities_data;
     initial_soc := initial_soc G;
     asc_parameters := asc_parameters G;
     early_parameters := early_parameters G;
     late_parameters := late_parameters G;
     long_parameters := long_parameters G;
     short_parameters := short_parameters G |}.

(** ** Notions used by the further properties *)

(** The predecessors of a label, nearest first. *)
Fixpoint earlier (L : Label) : list Label :=
  match previous L with
  | Some p => p :: earlier p
  | None => []
  end.

(** The number of [Group_mem] nodes of all the activities. *)
Fixpoint memory_nodes (acts : list Activity) : nat :=
  match acts with
  | [] => O
  | a :: rest => (length (memory a) + memory_nodes rest)%nat
  end.

(** Induction along the [previous] pointers. *)
Fixpoint Label_chain_ind (P : Label -> Prop)
  (Hfirst : forall L, previous L = None -> P L)
  (Hnext : forall L p, previous L = Some p -> P p -> P L)
  (L : Label) {struct L} : P L :=
  match L as L0 return P L0 with
  | mkLabel i t s d ds dd sa cs dl cd cc u m prev a =>
      match prev as o
        return P (mkLabel i t s d ds dd sa cs dl cd cc u m o a) with
      | Some p =>
          Hnext (mkLabel i t s d ds dd sa cs dl cd cc u m (Some p) a) p
            eq_refl (Label_chain_ind P Hfirst Hnext p)
      | None =>
          Hfirst (mkLabel i t s d ds dd sa cs dl cd cc u m None a) eq_refl
      end
  end.

(** [a'] is [a] with nodes appended to its memory. *)
Definition extends_memory (a a' : Activity) : Prop :=
  exists added, a' = set_memory a (memory a ++ added).

(** [L1] does not dominate [element]. *)
Definition not_dominated_by (L1 element : Label) : bool :=
  dominates (Some L1) (Some element) =? 0.

(** The labels of a cell, head first. *)
Definition labels_of (c : cell) : list Label := map fst c.

(** Every label of [bucket[t][i]] has the time [t] and points to
    [activities[i]]. *)
Definition bucket_indexed (G : Globals) (b : Bucket) : Prop :=
  forall t i L,
    In L (labels_of (b t i)) -> time L = t /\ activity_at G i = Some (act L).

(** * Properties *)

(** ** Group memory *)

Lemma found_in_In (g : Z) (m : Group_mem) : found_in g m = true <-> In g m.
Proof.
  induction m as [|g2 m IH]; simpl.
  - split; [discriminate | contradiction].
  - destruct (Z.eqb_spec g g2) as [->|Hne].
    + split; auto.
    + rewrite IH. split; [auto | intros [H|H]; congruence].
Qed.

Lemma common_nodes_In (g : Z) (head1 head2 : Group_mem) :
  In g (common_nodes head1 head2) <-> In g head1 /\ In g head2.
Proof.
  induction head1 as [|g1 head1 IH]; simpl.
  - tauto.
  - destruct (found_in g1 head2) eqn:E; simpl; rewrite IH.
    + apply found_in_In in E. split.
      * intros [->|[H1 H2]]; auto.
      * intros [[->|H1] H2]; auto.
    + split.
      * intros [H1 H2]; auto.
      * intros [[->|H1] H2]; auto.
        apply found_in_In in H2. congruence.
Qed.

Lemma unionLinkedLists_In (g : Z) (head1 head2 : Group_mem) (pipi : Z) :
  In g (unionLinkedLists head1 head2 pipi)
  <-> (In g head1 /\ In g head2) \/ g = pipi.
Proof.
  unfold unionLinkedLists.
  destruct head1 as [|g1 head1]; [simpl; intuition|].
  destruct head2 as [|g2 head2]; [simpl; intuition|].
  rewrite in_app_iff, common_nodes_In. simpl. intuition.
Qed.

Lemma copyLinkedList_id (m : Group_mem) : copyLinkedList m = m.
Proof. induction m; simpl; congruence. Qed.

Section Transition.

Context {libm : Libm}.
Variable G : Globals.

Lemma transition_mem (L : Label) (a : Activity) :
  id a <> act_id L ->
  mem (update_label_from_activity G L a)
  = unionLinkedLists (mem L) (memory a) (activity_type a).
Proof.
  intros H. unfold update_label_from_activity.
  apply Z.eqb_neq in H. rewrite H. simpl.
  destruct (charge_step _ _ _ _). reflexivity.
Qed.

(** C1, as amended: a transition to another activity keeps the groups of
    the label's memory that are also in the forbidden groups of the
    activity, and adds the group of the activity. *)
Theorem transition_memory (L : Label) (a : Activity) (g : Z) :
  id a <> act_id L ->
  In g (mem (update_label_from_activity G L a))
  <-> (In g (mem L) /\ In g (memory a)) \/ g = group a.
Proof.
  intros H. rewrite (transition_mem L a H).
  apply unionLinkedLists_In.
Qed.

End Transition.

(** C1, as stated, fails: the seed label has group 0 in its memory, and its
    successor at the work activity, which has no forbidden group, has not. *)
Lemma transition_memory_not_union :
  id Examples.work <> act_id Examples.seed
  /\ In 0 (mem Examples.seed)
  /\ ~ In 0 (mem (update_label_from_activity (libm := isqrt_libm)
                     Examples.dawn_work_dusk Examples.seed Examples.work)).
Proof.
  split; [discriminate|]. split; [left; reflexivity|].
  vm_compute. intros [H|[]]. discriminate.
Qed.

Lemma transition_memory_witness :
  id Examples.work <> act_id Examples.seed
  /\ (In 6 (mem (update_label_from_activity (libm := isqrt_libm)
                   Examples.dawn_work_dusk Examples.seed Examples.work))
      <-> (In 6 (mem Examples.seed) /\ In 6 (memory Examples.work))
          \/ 6 = group Examples.work).
Proof.
  split; [discriminate|].
  apply (transition_memory (libm := isqrt_libm) Examples.dawn_work_dusk
           Examples.seed Examples.work 6).
  discriminate.
Defined.

(** ** Dominance *)

Lemma contain_flag_In (g : Z) (m : Group_mem) (contain : bool) :
  contain_flag g m contain = true <-> contain = true \/ In g m.
Proof.
  revert contain. induction m as [|g2 m IH]; intros contain; simpl.
  - tauto.
  - rewrite IH. destruct (Z.eqb_spec g g2) as [->|Hne].
    + intuition.
    + split; [intuition|]. intros [H|[H|H]]; auto; congruence.
Qed.

Lemma dom_mem_loop_incl (m1 m2 : Group_mem) :
  dom_mem_loop m1 m2 = true <-> incl m1 m2.
Proof.
  induction m1 as [|g m1 IH]; simpl.
  - split; [intros _ g [] | reflexivity].
  - destruct (contain_flag g m2 false) eqn:E.
    + apply contain_flag_In in E. destruct E as [E|E]; [discriminate|].
      rewrite IH. split.
      * intros H g' [<-|H']; auto.
      * intros H g' H'. apply H. right. exact H'.
    + split; [discriminate|]. intros H.
      assert (In g m2) as Hg by (apply H; left; reflexivity).
      assert (contain_flag g m2 false = true) as E'
        by (apply contain_flag_In; right; exact Hg).
      congruence.
Qed.

(** C2: on two labels, [dominates] answers 2 exactly when the activity ids
    are equal, the memory of [L2] is included in the memory of [L1], the
    utility of [L1] is at least that of [L2] and the time of [L1] at most
    that of [L2], and 0 otherwise; a [NULL] second label is dominated
    (answer 1). *)
Theorem dominates_iff_conditions (L1 L2 : Label) :
  (dominates (Some L1) (Some L2) = 2 <-> dominance_conditions L1 L2)
  /\ (dominates (Some L1) (Some L2) <> 0 <-> dominance_conditions L1 L2)
  /\ dominates (Some L1) None = 1.
Proof.
  assert (dominance_conditions L1 L2
          \/ (~ dominance_conditions L1 L2 /\ dominates (Some L1) (Some L2) = 0))
    as Hcases.
  { unfold dominance_conditions, dominates, dom_mem_contains.
    destruct (Z.eqb_spec (act_id L1) (act_id L2)) as [Hid|Hid]; simpl;
      [|right; tauto].
    destruct (Qle_bool (utility L2) (utility L1)) eqn:Hu; simpl.
    2:{ right. split; [|reflexivity]. intros (_ & _ & Hle & _).
        apply Qle_bool_iff in Hle. congruence. }
    apply Qle_bool_iff in Hu.
    destruct (dom_mem_loop (mem L2) (mem L1)) eqn:Hm; simpl.
    2:{ right. split; [|reflexivity]. intros (_ & Hincl & _).
        apply dom_mem_loop_incl in Hincl. congruence. }
    apply dom_mem_loop_incl in Hm.
    destruct (Z.leb_spec (time L1) (time L2)) as [Ht|Ht].
    - left. tauto.
    - right. split; [|reflexivity]. intros (_ & _ & _ & Hle). lia. }
  assert (dominance_conditions L1 L2 -> dominates (Some L1) (Some L2) = 2)
    as Hyes.
  { unfold dominance_conditions, dominates, dom_mem_contains.
    intros (Hid & Hincl & Hu & Ht).
    apply Z.eqb_eq in Hid. apply dom_mem_loop_incl in Hincl.
    apply Qle_bool_iff in Hu. apply Z.leb_le in Ht.
    rewrite Hid, Hincl, Hu, Ht. reflexivity. }
  split; [|split].
  - split; [|exact Hyes]. intros H.
    destruct Hcases as [Hc|[_ H0]]; [exact Hc | congruence].
  - split.
    + intros H. destruct Hcases as [Hc|[_ H0]]; [exact Hc | congruence].
    + intros Hc. rewrite (Hyes Hc). discriminate.
  - reflexivity.
Qed.

(** The earlier variant minimises: of two labels that differ in utility
    only, it keeps the one with the smaller utility, [scheduling.c] the one
    with the larger. *)
Lemma legacy_dominates_minimises :
  let worse := Examples.seed in
  let better := set_utility Examples.seed 1 in
  dominates (Some better) (Some worse) = 2
  /\ dominates (Some worse) (Some better) = 0
  /\ Legacy.dominates (Some better) (Some worse) = 0
  /\ Legacy.dominates (Some worse) (Some better) = 2.
Proof. vm_compute. repeat split. Qed.

(** ** Continuation at the same activity *)

Section Continuation.

Context {libm : Libm}.
Variable G : Globals.

Lemma continuation_fields (L : Label) (a : Activity) :
  id a = act_id L ->
  time (update_label_from_activity G L a) = time L + time_interval G
  /\ duration (update_label_from_activity G L a)
     = duration L + time_interval G
  /\ utility (update_label_from_activity G L a) = utility L
  /\ mem (update_label_from_activity G L a) = mem L.
Proof.
  intros H. unfold update_label_from_activity.
  apply Z.eqb_eq in H. rewrite H. simpl.
  destruct (charge_step _ _ _ _). simpl.
  rewrite copyLinkedList_id. auto.
Qed.

End Continuation.

(** C4 at the settings of the test suite ([time_interval] 5): the seed
    label, at slot 1 with duration 1, may continue at dawn; its successor is
    at slot 6 with duration 6, not 2 and 2, and keeps the utility. *)
Theorem continuation_adds_time_interval :
  let G := Examples.dawn_work_dusk in
  let L := Examples.seed in
  let L' := update_label_from_activity (libm := isqrt_libm) G L Examples.dawn in
  id Examples.dawn = act_id L
  /\ is_feasible (libm := isqrt_libm) G (Some L) Examples.dawn = true
  /\ time L = 1 /\ duration L = 1
  /\ time L' = 6 /\ duration L' = 6
  /\ utility L' = utility L.
Proof. vm_compute. repeat split. Qed.

(** ** The charging-cost term of the utility *)

Section Utility.

Context {libm : Libm}.
Variable G : Globals.

Lemma transition_utility (L : Label) (a : Activity) :
  id a <> act_id L ->
  exists L', previous L' = Some L /\ act L' = a
  /\ start_time L' = time L + travel_time G (act L) a
  /\ utility (update_label_from_activity G L a) = utility_after G L' L.
Proof.
  intros H. unfold update_label_from_activity.
  apply Z.eqb_neq in H. rewrite H. simpl.
  destruct (charge_step _ _ _ _). simpl.
  eexists. split; [|split; [|split; [|reflexivity]]]; reflexivity.
Qed.

Lemma update_utility_previous (L previous_L : Label) :
  previous L = Some previous_L ->
  update_utility G L = Some (utility_after G L previous_L).
Proof. intros H. unfold update_utility. rewrite H. reflexivity. Qed.

(** What the code adds for the charge cost when the finished activity was
    charging: the difference with the label just before [previous_L]. *)
Lemma charging_cost_term (previous_L before : Label) :
  is_charging (act previous_L) = true ->
  previous previous_L = Some before ->
  (charging_terms previous_L
   == gamma_charge (activity_type (act previous_L))
      + theta_soc * fmax 0 (soc_threshold - soc_at_activity_start previous_L)
      + beta_delta_soc
        * (current_soc previous_L - soc_at_activity_start previous_L)
      + beta_charge_cost * (charge_cost previous_L - charge_cost before))%Q.
Proof.
  intros Hc Hp. unfold charging_terms, interval_charge_cost.
  rewrite Hc, Hp. reflexivity.
Qed.

End Utility.

(** C5 on a run with hourly slots: dawn, two intervals at a work charger,
    dusk.  Every step is feasible.  The cumulative cost is 0 before the
    activity, 3.64 after its first interval and 7.28 at its end; the
    specification's term is beta_charge_cost times 7.28, the code adds
    beta_charge_cost times 3.64, the cost of the last interval. *)
Theorem charging_cost_term_last_interval_only :
  let G := Examples.dawn_charge_dusk in
  is_feasible (libm := isqrt_libm) G (Some Examples.at_dawn)
    Examples.work_charging = true
  /\ is_feasible (libm := isqrt_libm) G (Some Examples.charging_1)
       Examples.work_charging = true
  /\ is_feasible (libm := isqrt_libm) G (Some Examples.charging_2)
       Examples.dusk = true
  /\ is_charging (act Examples.charging_2) = true
  /\ (charge_cost Examples.at_dawn == 0)%Q
  /\ (charge_cost Examples.charging_1 == 364 # 100)%Q
  /\ (charge_cost Examples.charging_2 == 728 # 100)%Q
  /\ (spec_activity_charge_cost Examples.charging_2 == 728 # 100)%Q
  /\ (interval_charge_cost Examples.charging_2 == 364 # 100)%Q
  /\ (utility Examples.at_dusk
      == utility Examples.charging_2
         + param (asc_parameters G) 0
         + duration_penalty G Examples.charging_2
         + (gamma_charge_work
            + theta_soc * fmax 0 (soc_threshold - (1 # 2))
            + beta_delta_soc * (14 # 60)
            + beta_charge_cost * (364 # 100)))%Q.
Proof. vm_compute. repeat split. Qed.

(** ** Feasibility and the group memory *)

Section Feasibility.

Context {libm : Libm}.
Variable G : Globals.

Lemma mem_contains_true (L : Label) (a : Activity) :
  group a <> 0 -> In (group a) (mem L) -> mem_contains L a = true.
Proof.
  intros H0 Hin. unfold mem_contains.
  apply Z.eqb_neq in H0. rewrite H0. apply found_in_In. exact Hin.
Qed.

Lemma feasible_other_mem (L : Label) (a dusk : Activity) :
  mem_contains L a = true -> feasible_other G L a dusk = false.
Proof.
  intros H. unfold feasible_other. rewrite H.
  repeat match goal with
         | |- (if ?c then _ else _) = false => destruct c; try reflexivity
         end.
Qed.

(** C6, as amended: an activity other than the label's whose group is not
    0 and is in the label's memory is not feasible. *)
Theorem visited_group_is_infeasible (L : Label) (a : Activity) :
  id a <> act_id L ->
  group a <> 0 ->
  In (group a) (mem L) ->
  is_feasible G (Some L) a = false.
Proof.
  intros Hid H0 Hin. unfold is_feasible.
  destruct (negb (act_id L =? 0) && (id a =? 0)); [reflexivity|].
  assert ((act_id L =? id a) = false) as -> by (apply Z.eqb_neq; congruence).
  destruct (activity_at G (num_activities G - 1)) as [dusk|]; [|reflexivity].
  apply feasible_other_mem. apply mem_contains_true; assumption.
Qed.

End Feasibility.

(** C6, as stated, fails for group 0: the seed label has group 0 in its
    memory, dusk is another activity of group 0, and dusk is feasible. *)
Lemma visited_home_group_is_feasible :
  id Examples.dusk <> act_id Examples.seed
  /\ In (group Examples.dusk) (mem Examples.seed)
  /\ is_feasible (libm := isqrt_libm) Examples.dawn_work_dusk
       (Some Examples.seed) Examples.dusk = true.
Proof.
  split; [discriminate|]. split; [left; reflexivity|].
  vm_compute. reflexivity.
Qed.

Lemma visited_group_is_infeasible_witness :
  let L := update_label_from_activity (libm := isqrt_libm)
             Examples.dawn_work_dusk Examples.seed Examples.work in
  let a := Examples.create_test_activity 3 0 0 6 0 276 10 144 98 80 in
  id a <> act_id L /\ group a <> 0 /\ In (group a) (mem L)
  /\ is_feasible (libm := isqrt_libm) Examples.dawn_work_dusk (Some L) a
     = false.
Proof.
  assert (3 <> 1) as H1 by discriminate.
  assert (6 <> 0) as H2 by discriminate.
  assert (In 6 [6]) as H3 by (left; reflexivity).
  split; [exact H1|]. split; [exact H2|]. split; [exact H3|].
  exact (visited_group_is_infeasible (libm := isqrt_libm)
           Examples.dawn_work_dusk
           (update_label_from_activity (libm := isqrt_libm)
              Examples.dawn_work_dusk Examples.seed Examples.work)
           (Examples.create_test_activity 3 0 0 6 0 276 10 144 98 80)
           H1 H2 H3).
Defined.

(** ** The charging kernel *)

Section ChargeRates.

Context {libm : Libm}.
Variable G : Globals.

(** The quotient of two [int]s: no charge at all for an interval shorter
    than an hour. *)
Lemma charge_rates_zero_below_an_hour :
  0 <= time_interval G < 60 ->
  (slow_charge_rate G == 0)%Q /\ (fast_charge_rate G == 0)%Q
  /\ (rapid_charge_rate G == 0)%Q.
Proof.
  intros H.
  unfold slow_charge_rate, fast_charge_rate, rapid_charge_rate,
    fraction_of_hours_per_interval, double_of_int.
  rewrite (Z.quot_small _ _ H).
  repeat split; apply Qmult_0_r.
Qed.

Lemma charge_rates_nonneg :
  0 <= time_interval G ->
  (0 <= slow_charge_rate G)%Q /\ (0 <= fast_charge_rate G)%Q
  /\ (0 <= rapid_charge_rate G)%Q.
Proof.
  intros H.
  assert (0 <= fraction_of_hours_per_interval G)%Q as Hf.
  { unfold fraction_of_hours_per_interval, double_of_int.
    change 0%Q with (inject_Z 0). rewrite <- Zle_Qle.
    apply Z.quot_pos; lia. }
  unfold slow_charge_rate, fast_charge_rate, rapid_charge_rate.
  repeat split; apply Qmult_le_0_compat; try exact Hf; discriminate.
Qed.

Lemma charge_rate_nonneg (a : Activity) :
  0 <= time_interval G ->
  (0 <= fst (get_charge_rate_and_price G a))%Q.
Proof.
  intros H. destruct (charge_rates_nonneg H) as (Hs & Hf & Hr).
  unfold get_charge_rate_and_price.
  destruct (charge_mode a) as [|[[[]|[]|]|[[]|[]|]|]|]; simpl;
    auto; apply Qle_refl.
Qed.

End ChargeRates.

(** C7 at the settings of the test suite ([time_interval] 5), for a home
    activity in charge mode 1: the table of the specification gives the rate
    7/60 * 5/60 and the home price; the code gives (0, 0), because its
    [switch] has the slow mode at 2, and in mode 2 it gives the rate 0,
    because [time_interval / 60] is the quotient of two [int]s. *)
Theorem charge_kernel_differs_from_table :
  let G := Examples.dawn_work_dusk in
  let a := Examples.home_slow in
  let a2 := Examples.home_mode_2 in
  time_interval G = 5 /\ charge_mode a = 1 /\ group a = 0
  /\ (fst (spec_charge_profile 1 0 5) == 7 # 720)%Q
  /\ snd (spec_charge_profile 1 0 5) = home_slow_charge_price
  /\ get_charge_rate_and_price G a = (0%Q, 0%Q)
  /\ charge_mode a2 = 2
  /\ (fst (get_charge_rate_and_price G a2) == 0)%Q
  /\ snd (get_charge_rate_and_price G a2) = home_slow_charge_price.
Proof. vm_compute. repeat split. Qed.

(** ** Travel time *)

Lemma int_of_double_nonneg (d : Q) : (0 <= d)%Q -> 0 <= int_of_double d.
Proof.
  intros H. unfold int_of_double. apply Z.quot_pos; [|lia].
  unfold Qle in H. simpl in H. lia.
Qed.

Lemma int_of_double_zero (d : Q) : (d == 0)%Q -> int_of_double d = 0.
Proof.
  intros H. unfold int_of_double. unfold Qeq in H. simpl in H.
  replace (Qnum d) with 0 by lia. apply Z.quot_0_l. lia.
Qed.

Lemma int_of_double_product (c n : Z) :
  int_of_double (inject_Z c * double_of_int n)%Q = c * n.
Proof. unfold int_of_double. simpl. apply Z.quot_1_r. Qed.

Section TravelTime.

Context {libm : Libm}.
Variable G : Globals.

Lemma distance_x_nonneg (a b : Activity) : (0 <= distance_x a b)%Q.
Proof. apply sqrt_nonneg. Qed.

Lemma distance_x_same_location (a b : Activity) :
  (x a == x b)%Q -> (y a == y b)%Q -> (distance_x a b == 0)%Q.
Proof.
  intros Hx Hy. unfold distance_x. apply sqrt_zero.
  rewrite Hx, Hy. ring.
Qed.

Lemma travel_time_ceiling (a b : Activity) :
  time_interval G <> 0 ->
  travel_time G a b
  = Qceiling (inject_Z (int_of_double (distance_x a b / speed G))
              / inject_Z (time_interval G)).
Proof.
  intros Hti. unfold travel_time, ceil.
  rewrite int_of_double_product. unfold double_of_int.
  apply Z.quot_mul. exact Hti.
Qed.

(** C9, as amended: the raw minutes [distance / speed] lose their
    fractional part first; the whole minutes are then rounded up to a whole
    number of intervals.  The result is not negative, and is 0 between two
    activities at the same place. *)
Theorem travel_time_rounds_whole_minutes (a b : Activity) :
  (0 < speed G)%Q ->
  0 < time_interval G ->
  travel_time G a b
  = Qceiling (inject_Z (int_of_double (distance_x a b / speed G))
              / inject_Z (time_interval G))
  /\ 0 <= travel_time G a b
  /\ ((x a == x b)%Q -> (y a == y b)%Q -> travel_time G a b = 0).
Proof.
  intros Hs Hti.
  assert (time_interval G <> 0) as Hne by lia.
  rewrite (travel_time_ceiling a b Hne).
  split; [reflexivity|]. split.
  - assert (0 <= int_of_double (distance_x a b / speed G)) as Hm.
    { apply int_of_double_nonneg. apply Qle_shift_div_l; [exact Hs|].
      rewrite Qmult_0_l. apply distance_x_nonneg. }
    rewrite <- (Qceiling_Z 0). apply Qceiling_resp_le.
    apply Qle_shift_div_l.
    + change 0%Q with (inject_Z 0). rewrite <- Zlt_Qlt. exact Hti.
    + rewrite Qmult_0_l. change 0%Q with (inject_Z 0).
      rewrite <- Zle_Qle. exact Hm.
  - intros Hx Hy.
    rewrite int_of_double_zero.
    + unfold Qdiv. rewrite Qmult_0_l. reflexivity.
    + rewrite (distance_x_same_location a b Hx Hy).
      unfold Qdiv. apply Qmult_0_l.
Qed.

End TravelTime.

(** C9, as stated, fails: 250 metres at 500 metres per minute are half a
    minute, one interval of 5 minutes when rounded up; the code returns 0
    intervals. *)
Lemma travel_time_drops_fraction :
  let G := Examples.dawn_work_dusk in
  (distance_x (libm := isqrt_libm) Examples.dawn Examples.corner_shop / speed G
   == 1 # 2)%Q
  /\ time_interval G = 5
  /\ spec_travel_intervals (libm := isqrt_libm) G Examples.dawn
       Examples.corner_shop = 1
  /\ travel_time (libm := isqrt_libm) G Examples.dawn Examples.corner_shop = 0.
Proof. vm_compute. repeat split. Qed.

Lemma travel_time_rounds_whole_minutes_witness :
  let G := Examples.dawn_work_dusk in
  (0 < speed G)%Q /\ 0 < time_interval G
  /\ travel_time (libm := isqrt_libm) G Examples.dawn Examples.corner_shop
     = Qceiling
         (inject_Z (int_of_double
                      (distance_x (libm := isqrt_libm) Examples.dawn
                         Examples.corner_shop / speed G))
          / inject_Z (time_interval G))
  /\ 0 <= travel_time (libm := isqrt_libm) G Examples.dawn
            Examples.corner_shop.
Proof.
  assert (0 < speed Examples.dawn_work_dusk)%Q as Hs by reflexivity.
  assert (0 < time_interval Examples.dawn_work_dusk) as Hti by reflexivity.
  split; [exact Hs|]. split; [exact Hti|].
  destruct (travel_time_rounds_whole_minutes (libm := isqrt_libm)
              Examples.dawn_work_dusk Examples.dawn Examples.corner_shop
              Hs Hti) as (H1 & H2 & _).
  split; [exact H1 | exact H2].
Defined.

(** ** State of charge *)

Lemma fmin_bounds (room rate : Q) :
  (0 <= room)%Q -> (0 <= rate)%Q ->
  (0 <= fmin room rate)%Q /\ (fmin room rate <= room)%Q.
Proof.
  intros Hroom Hrate. unfold fmin.
  destruct (Q.min_spec room rate) as [[_ ->]|[Hle ->]]; split;
    try assumption; apply Qle_refl.
Qed.

Section StateOfCharge.

Context {libm : Libm}.
Variable G : Globals.

Lemma energy_consumed_soc_nonneg (a b : Activity) :
  (0 <= energy_consumed_soc a b)%Q.
Proof.
  unfold energy_consumed_soc.
  pose proof (distance_x_nonneg a b) as Hd.
  unfold energy_consumption_rate, battery_capacity.
  apply Qle_shift_div_l; [reflexivity|]. rewrite Qmult_0_l.
  apply Qmult_le_0_compat; [discriminate|].
  apply Qle_shift_div_l; [reflexivity|]. rewrite Qmult_0_l. exact Hd.
Qed.

Lemma transition_soc (L : Label) (a : Activity) :
  id a <> act_id L ->
  let soc_start := (current_soc L - energy_consumed_soc (act L) a)%Q in
  current_soc (update_label_from_activity G L a)
  = if is_charging a
    then (soc_start
          + fmin (soc_full - soc_start) (fst (get_charge_rate_and_price G a)))%Q
    else soc_start.
Proof.
  intros H. unfold update_label_from_activity, charge_step.
  apply Z.eqb_neq in H. rewrite H. simpl.
  destruct (get_charge_rate_and_price G a). reflexivity.
Qed.

Lemma continuation_soc (L : Label) (a : Activity) :
  id a = act_id L ->
  current_soc (update_label_from_activity G L a)
  = if is_charging a && negb (Qle_bool soc_full (current_soc L))
    then (current_soc L
          + fmin (soc_full - current_soc L)
              (fst (get_charge_rate_and_price G a)))%Q
    else current_soc L.
Proof.
  intros H. unfold update_label_from_activity, charge_step.
  apply Z.eqb_eq in H. rewrite H. simpl.
  destruct (get_charge_rate_and_price G a). reflexivity.
Qed.

Lemma feasible_other_soc (L : Label) (a dusk : Activity) :
  feasible_other G L a dusk = true ->
  (0 <= current_soc L - energy_consumed_soc (act L) a)%Q.
Proof.
  unfold feasible_other. intros H. apply Qle_bool_iff.
  destruct (Qle_bool 0 (current_soc L - energy_consumed_soc (act L) a));
    [reflexivity|].
  simpl in H.
  repeat match type of H with
         | (if ?c then _ else _) = true => destruct c; try discriminate H
         end.
Qed.

Lemma feasible_transition_soc (L : Label) (a : Activity) :
  id a <> act_id L ->
  is_feasible G (Some L) a = true ->
  (0 <= current_soc L - energy_consumed_soc (act L) a)%Q.
Proof.
  intros Hid. unfold is_feasible.
  destruct (negb (act_id L =? 0) && (id a =? 0)); [discriminate|].
  assert ((act_id L =? id a) = false) as -> by (apply Z.eqb_neq; congruence).
  destruct (activity_at G (num_activities G - 1)) as [dusk|]; [|discriminate].
  apply feasible_other_soc.
Qed.

(** One step keeps the state of charge between 0 and 1. *)
Lemma step_soc (L : Label) (a : Activity) :
  0 <= time_interval G ->
  (0 <= current_soc L)%Q /\ (current_soc L <= 1)%Q ->
  is_feasible G (Some L) a = true ->
  (0 <= current_soc (update_label_from_activity G L a))%Q
  /\ (current_soc (update_label_from_activity G L a) <= 1)%Q.
Proof.
  intros Hti [H0 H1] Hfeas.
  pose proof (charge_rate_nonneg G a Hti) as Hrate.
  destruct (Z.eq_dec (id a) (act_id L)) as [Hid|Hid].
  - rewrite (continuation_soc L a Hid).
    destruct (is_charging a && negb (Qle_bool soc_full (current_soc L)));
      [|split; assumption].
    destruct (fmin_bounds (soc_full - current_soc L)
                (fst (get_charge_rate_and_price G a))) as [Hlo Hhi];
      [unfold soc_full; lra | exact Hrate |].
    unfold soc_full in *. split; lra.
  - pose proof (feasible_transition_soc L a Hid Hfeas) as Hs.
    pose proof (energy_consumed_soc_nonneg (act L) a) as He.
    rewrite (transition_soc L a Hid). cbv zeta.
    destruct (is_charging a); [|split; lra].
    destruct (fmin_bounds
                (soc_full - (current_soc L - energy_consumed_soc (act L) a))
                (fst (get_charge_rate_and_price G a))) as [Hlo Hhi];
      [unfold soc_full; lra | exact Hrate |].
    unfold soc_full in *. split; lra.
Qed.

(** The invariant along the steps of a run. *)
Lemma reachable_soc (L : Label) :
  (0 <= initial_soc G)%Q /\ (initial_soc G <= 1)%Q ->
  0 <= time_interval G ->
  reachable G L ->
  (0 <= current_soc L)%Q /\ (current_soc L <= 1)%Q.
Proof.
  intros Hinit Hti Hreach.
  induction Hreach as [dawn _|L a _ IH _ Hfeas].
  - exact Hinit.
  - apply step_soc; assumption.
Qed.

End StateOfCharge.

Lemma example_run_reachable :
  reachable (libm := isqrt_libm) Examples.dawn_charge_dusk Examples.charging_2.
Proof.
  unfold Examples.charging_2, Examples.charging_1, Examples.at_dawn.
  apply reachable_step; [apply reachable_step; [apply reachable_seed| |]| |].
  - reflexivity.
  - right; left; reflexivity.
  - vm_compute; reflexivity.
  - right; left; reflexivity.
  - vm_compute; reflexivity.
Defined.

(** ** Continuity of the charge mode *)

Section ChargeMode.

Context {libm : Libm}.
Variable G : Globals.

Lemma update_act (L : Label) (a : Activity) :
  act (update_label_from_activity G L a) = a
  /\ act_id (update_label_from_activity G L a) = id a
  /\ previous (update_label_from_activity G L a) = Some L.
Proof.
  unfold update_label_from_activity.
  destruct (negb (id a =? act_id L)); simpl;
    destruct (charge_step _ _ _ _); simpl; auto.
Qed.

(** [act_id] is the id of the activity the label points to, for every
    label of a run whose first activity has id 0. *)
Lemma reachable_act_id (L : Label) :
  (forall dawn, nth_error (activities G) 0 = Some dawn -> id dawn = 0) ->
  reachable G L ->
  act_id L = id (act L).
Proof.
  intros Hdawn Hreach. destruct Hreach as [dawn Hnth|L a _ _ _].
  - simpl. symmetry. apply Hdawn. exact Hnth.
  - destruct (update_act L a) as (-> & -> & _). reflexivity.
Qed.

Lemma unique_id (acts : list Activity) (a b : Activity) :
  NoDup (map id acts) -> In a acts -> In b acts -> id a = id b -> a = b.
Proof.
  induction acts as [|c acts IH]; simpl; [contradiction|].
  intros Hnd Ha Hb Hid. inversion Hnd as [|? ? Hnotin Hnd']; subst.
  destruct Ha as [->|Ha], Hb as [->|Hb]; auto.
  - exfalso. apply Hnotin. rewrite Hid. apply in_map. exact Hb.
  - exfalso. apply Hnotin. rewrite <- Hid. apply in_map. exact Ha.
Qed.

(** The label of a run other than the seed points to the activity of the
    array that has its [act_id]. *)
Lemma reachable_act (L : Label) (a : Activity) :
  NoDup (map id (activities G)) ->
  reachable G L ->
  has_previous L = true ->
  In a (activities G) ->
  id a = act_id L ->
  act L = a.
Proof.
  intros Hnd Hreach Hprev Hin Hid.
  destruct Hreach as [dawn _|L a' _ Hin' _].
  - discriminate Hprev.
  - destruct (update_act L a') as (Hact & Hactid & _).
    rewrite Hact. rewrite Hactid in Hid.
    symmetry. apply (unique_id (activities G)); assumption.
Qed.

(** C10: the ids of the array being unique, a label of a run and an
    activity of the array with the label's [act_id] never differ in charge
    mode: the test of [is_feasible] for a change of charge mode during an
    activity is never true. *)
Theorem charge_mode_never_differs (L : Label) (a : Activity) :
  NoDup (map id (activities G)) ->
  reachable G L ->
  In a (activities G) ->
  id a = act_id L ->
  charge_mode_differs L a = false.
Proof.
  intros Hnd Hreach Hin Hid. unfold charge_mode_differs.
  destruct (has_previous L) eqn:Hprev; [|reflexivity].
  rewrite (reachable_act L a Hnd Hreach Hprev Hin Hid).
  rewrite Z.eqb_refl. reflexivity.
Qed.

End ChargeMode.

Lemma charge_mode_never_differs_witness :
  let G := Examples.dawn_charge_dusk in
  NoDup (map id (activities G))
  /\ In Examples.work_charging (activities G)
  /\ id Examples.work_charging = act_id Examples.charging_2
  /\ charge_mode_differs Examples.charging_2 Examples.work_charging = false.
Proof.
  assert (NoDup (map id (activities Examples.dawn_charge_dusk))) as Hnd.
  { simpl. repeat constructor; simpl; intuition discriminate. }
  assert (In Examples.work_charging (activities Examples.dawn_charge_dusk))
    as Hin by (right; left; reflexivity).
  assert (id Examples.work_charging = act_id Examples.charging_2) as Hid
    by reflexivity.
  split; [exact Hnd|]. split; [exact Hin|]. split; [exact Hid|].
  exact (charge_mode_never_differs (libm := isqrt_libm)
           Examples.dawn_charge_dusk Examples.charging_2
           Examples.work_charging Hnd example_run_reachable Hin Hid).
Defined.

(** ** The labels in the bucket *)

Section BucketLabels.

Context {libm : Libm}.
Variable G : Globals.

Lemma relink_labels (c : cell) (relinked : bool) :
  map fst (relink c relinked) = map fst c.
Proof. destruct c as [|[e p] rest]; reflexivity. Qed.

#[local] Opaque dominates.

Lemma dominance_pass_labels (L1 : Label) (next : cell) :
  forall (element : Label) (has_prev relinked : bool) (c : cell),
    dominance_pass L1 element has_prev next relinked = Some c ->
    forall L, In L (map fst c) ->
              L = L1 \/ L = element \/ In L (map fst next).
Proof.
  induction next as [|[e2 p2] rest IH]; intros element has_prev relinked c;
    simpl.
  - destruct (negb (dominates (Some L1) (Some element) =? 0)).
    + destruct has_prev; [discriminate|].
      intros [= <-] L [<-|[]]. auto.
    + destruct (negb (dominates (Some element) (Some L1) =? 0));
        intros [= <-] L; simpl; intuition.
  - destruct (negb (dominates (Some L1) (Some element) =? 0)).
    + destruct has_prev; intros H L HL;
        destruct (IH _ _ _ _ H L HL) as [?|[?|?]]; auto.
    + destruct (negb (dominates (Some element) (Some L1) =? 0)).
      * intros [= <-] L. simpl. intuition.
      * destruct (dominance_pass L1 e2 (p2 || relinked) rest false)
          as [c'|] eqn:E; [|discriminate].
        intros [= <-] L [<-|HL]; auto.
        destruct (IH _ _ _ _ E L HL) as [?|[?|?]]; auto.
Qed.

Lemma insert_label_labels (L1 : Label) (c c' : cell) :
  insert_label L1 c = Some c' ->
  forall L, In L (map fst c') -> L = L1 \/ In L (map fst c).
Proof.
  unfold insert_label. destruct c as [|[element has_prev] next].
  - intros [= <-] L [<-|[]]. auto.
  - intros H L HL.
    destruct (dominance_pass_labels _ _ _ _ _ _ H L HL) as [?|[?|?]];
      simpl; auto.
Qed.

#[local] Opaque is_feasible update_label_from_activity insert_label in_bucket.

Lemma set_cell_reachable (b : Bucket) (t i : Z) (c : cell) :
  bucket_reachable G b ->
  (forall L, In L (map fst c) -> reachable G L) ->
  bucket_reachable G (set_cell b t i c).
Proof.
  intros Hb Hc t' i' L. unfold set_cell.
  destruct ((t' =? t) && (i' =? i)); [apply Hc | apply Hb].
Qed.

Lemma extend_loop_reachable (L : Label) (h act_index : Z)
  (acts : list Activity) :
  reachable G L ->
  incl acts (activities G) ->
  forall (a1 : Z) (b b' : Bucket),
    bucket_reachable G b ->
    extend_loop G L h act_index acts a1 b = Some b' ->
    bucket_reachable G b'.
Proof.
  intros HL. induction acts as [|a rest IH]; intros Hincl a1 b b' Hb; simpl.
  - intros [= <-]. exact Hb.
  - assert (incl rest (activities G)) as Hrest
      by (intros a' Ha'; apply Hincl; right; exact Ha').
    destruct (is_feasible G (Some L) a) eqn:Hfeas; [|apply IH; assumption].
    destruct (in_bucket G (time (update_label_from_activity G L a)) a1
              && negb ((time (update_label_from_activity G L a) =? h)
                       && (a1 =? act_index))); [|discriminate].
    destruct (insert_label (update_label_from_activity G L a)
                (b (time (update_label_from_activity G L a)) a1))
      as [c|] eqn:Hins; [|discriminate].
    apply IH; [exact Hrest|].
    apply set_cell_reachable; [exact Hb|].
    intros L' HL'.
    destruct (insert_label_labels _ _ _ Hins L' HL') as [->|Hold].
    + apply reachable_step; [exact HL| |exact Hfeas].
      apply Hincl. left. reflexivity.
    + apply (Hb _ _ _ Hold).
Qed.

Lemma scanned_activities_incl : incl (scanned_activities G) (activities G).
Proof.
  unfold scanned_activities. intros a Ha.
  rewrite <- (firstn_skipn (Z.to_nat (num_activities G)) (activities G)).
  apply in_or_app. left. exact Ha.
Qed.

Lemma scan_cell_reachable (labels : list Label) (h act_index : Z) :
  forall (b b' : Bucket),
    (forall L, In L labels -> reachable G L) ->
    bucket_reachable G b ->
    scan_cell G labels h act_index b = Some b' ->
    bucket_reachable G b'.
Proof.
  induction labels as [|L rest IH]; intros b b' Hlabels Hb; simpl.
  - intros [= <-]. exact Hb.
  - destruct (extend_loop G L h act_index (scanned_activities G) 0 b)
      as [b1|] eqn:E; [|discriminate].
    apply IH.
    + intros L' HL'. apply Hlabels. right. exact HL'.
    + apply (extend_loop_reachable L h act_index (scanned_activities G)
               (Hlabels L (or_introl eq_refl))
               scanned_activities_incl 0 b b1 Hb E).
Qed.

Lemma activity_loop_reachable (n : nat) (h : Z) :
  forall (act_index : Z) (b b' : Bucket),
    bucket_reachable G b ->
    activity_loop G n act_index h b = Some b' ->
    bucket_reachable G b'.
Proof.
  induction n as [|n IH]; intros act_index b b' Hb; simpl.
  - intros [= <-]. exact Hb.
  - destruct (scan_cell G (map fst (b h act_index)) h act_index b)
      as [b1|] eqn:E; [|discriminate].
    apply IH.
    apply (scan_cell_reachable _ h act_index b b1 (Hb h act_index) Hb E).
Qed.

Lemma time_loop_reachable (n : nat) :
  forall (h : Z) (b b' : Bucket),
    bucket_reachable G b ->
    time_loop G n h b = Some b' ->
    bucket_reachable G b'.
Proof.
  induction n as [|n IH]; intros h b b' Hb; simpl.
  - intros [= <-]. exact Hb.
  - destruct (activity_loop G (Z.to_nat (num_activities G)) 0 h b)
      as [b1|] eqn:E; [|discriminate].
    apply IH. apply (activity_loop_reachable _ h 0 b b1 Hb E).
Qed.

(** The labels that [DP] leaves in the bucket are labels of the run. *)
Lemma DP_reachable (b : Bucket) :
  DP G = Some b -> bucket_reachable G b.
Proof.
  unfold DP. destruct (activities G) as [|dawn acts] eqn:Hacts;
    [discriminate|].
  destruct (in_bucket G (time (create_label G dawn)) 0
            && (num_activities G <=? Z.of_nat (length (dawn :: acts)))
            && (num_activities G <=? max_num_activities G));
    [|discriminate].
  apply time_loop_reachable.
  apply set_cell_reachable.
  - intros t i L [].
  - intros L [<-|[]]. apply reachable_seed. rewrite Hacts. reflexivity.
Qed.

#[local] Transparent dominates is_feasible update_label_from_activity
  insert_label in_bucket.

End BucketLabels.

(** C8: with an initial state of charge between 0 and 1 (and a time
    interval that is not negative), the state of charge of every label of a
    run, built step by step from the seed label or found in the bucket
    after [DP], is between 0 and 1. *)
Theorem soc_between_0_and_1 {libm : Libm} (G : Globals) (L : Label) :
  (0 <= initial_soc G)%Q /\ (initial_soc G <= 1)%Q ->
  0 <= time_interval G ->
  reachable G L
  \/ (exists b t i, DP G = Some b /\ In L (map fst (b t i))) ->
  (0 <= current_soc L)%Q /\ (current_soc L <= 1)%Q.
Proof.
  intros Hinit Hti [Hreach|(b & t & i & Hdp & Hin)].
  - apply (reachable_soc G L Hinit Hti Hreach).
  - apply (reachable_soc G L Hinit Hti).
    apply (DP_reachable G b Hdp t i L Hin).
Qed.

Lemma soc_between_0_and_1_witness :
  let G := Examples.dawn_charge_dusk in
  ((0 <= initial_soc G)%Q /\ (initial_soc G <= 1)%Q)
  /\ 0 <= time_interval G
  /\ (0 <= current_soc Examples.charging_2)%Q
  /\ (current_soc Examples.charging_2 <= 1)%Q.
Proof.
  assert ((0 <= initial_soc Examples.dawn_charge_dusk)%Q
          /\ (initial_soc Examples.dawn_charge_dusk <= 1)%Q) as Hinit
    by (split; discriminate).
  assert (0 <= time_interval Examples.dawn_charge_dusk) as Hti
    by discriminate.
  split; [exact Hinit|]. split; [exact Hti|].
  exact (soc_between_0_and_1 (libm := isqrt_libm) Examples.dawn_charge_dusk
           Examples.charging_2 Hinit Hti (or_introl example_run_reachable)).
Defined.

(** ** The DSSR loop *)

(** On the day with a home activity, whatever dawn's memory [m]: the run
    of the DP returns dawn, home, dusk; [DSSR] reports a cycle on group 0,
    between home and dawn, and appends 0 to dawn's memory. *)
Lemma home_day_turn (m : Group_mem) :
  DP_then_DSSR (libm := isqrt_libm) (Examples.home_day m)
  = Some (1, activities (Examples.home_day (m ++ [0]))).
Proof. vm_compute. reflexivity. Qed.

Lemma home_day_best (m : Group_mem) :
  option_map (fun b => option_map schedule (best_of (Examples.home_day m) b))
    (DP (libm := isqrt_libm) (Examples.home_day m))
  = Some (Some [3; 1; 1; 1; 1; 0]).
Proof. vm_compute. reflexivity. Qed.

Lemma home_day_loops (fuel : nat) :
  forall (m : Group_mem) (count : Z),
  exists m',
    solve (libm := isqrt_libm) fuel (Examples.home_day m) count
    = Looping (Examples.home_day m') (count + Z.of_nat (S fuel)).
Proof.
  induction fuel as [|fuel IH]; intros m count; cbn [solve];
    pose proof (home_day_turn m) as H; unfold DP_then_DSSR in H;
    destruct (DP (Examples.home_day m)) as [b|]; try discriminate H;
    change (in_bucket (Examples.home_day m)
              (horizon (Examples.home_day m) - 1)
              (max_num_activities (Examples.home_day m) - 1)) with true;
    cbv iota; rewrite H; change (1 =? 0) with false; cbv iota.
  - exists (m ++ [0]). reflexivity.
  - change (with_activities (Examples.home_day m)
              (activities (Examples.home_day (m ++ [0]))))
      with (Examples.home_day (m ++ [0])).
    destruct (IH (m ++ [0]) (count + 1)) as [m' ->]. exists m'.
    f_equal. lia.
Qed.

(** C3 on the day with a home activity, started with empty forbidden
    groups.  The first turn reports a cycle and puts group 0 into dawn's
    forbidden groups.  The second turn reports a cycle again and leaves
    every set of forbidden groups as it was: it appends a second 0 to dawn's
    list.  The loop of [main] never converges: after any number of runs of
    the DP it is still running. *)
Theorem DSSR_loop_does_not_terminate :
  DP_then_DSSR (libm := isqrt_libm) (Examples.home_day [])
  = Some (1, activities (Examples.home_day [0]))
  /\ DP_then_DSSR (libm := isqrt_libm) (Examples.home_day [0])
     = Some (1, activities (Examples.home_day [0; 0]))
  /\ same_forbidden_groups (activities (Examples.home_day [0]))
       (activities (Examples.home_day [0; 0]))
  /\ forall fuel : nat,
       exists m,
         solve (libm := isqrt_libm) fuel (Examples.home_day []) 0
         = Looping (Examples.home_day m) (Z.of_nat (S fuel)).
Proof.
  split; [exact (home_day_turn [])|].
  split; [exact (home_day_turn [0])|].
  split.
  - unfold same_forbidden_groups. simpl.
    repeat (apply Forall2_cons; [intros g; simpl; tauto|]).
    apply Forall2_nil.
  - intros fuel. exact (home_day_loops fuel [] 0).
Qed.

(** * Further properties of the code *)

(** ** [find_best] *)

Lemma find_best_loop_max (li : L_list) :
  forall (best : Label) (L : Label),
    find_best_loop li (Some (utility best)) (Some best) = Some L ->
    (L = best \/ In L li)
    /\ (utility best <= utility L)%Q
    /\ (forall L', In L' li -> (utility L' <= utility L)%Q).
Proof.
  induction li as [|element next IH]; intros best L; simpl.
  - intros [= <-]. split; [auto|]. split; [apply Qle_refl|]. intros L' [].
  - destruct (Qle_bool (utility element) (utility best)) eqn:E; simpl;
      intros H; destruct (IH _ _ H) as (Hin & Hle & Hall).
    + apply Qle_bool_iff in E.
      split; [destruct Hin; auto|]. split; [exact Hle|].
      intros L' [<-|HL']; [|auto]. apply (Qle_trans _ _ _ E Hle).
    + assert (utility best <= utility element)%Q as Hlt.
      { apply Qlt_le_weak. apply Qnot_le_lt. intros Hc.
        apply Qle_bool_iff in Hc. congruence. }
      split; [destruct Hin as [->|Hin]; auto|].
      split; [apply (Qle_trans _ _ _ Hlt Hle)|].
      intros L' [<-|HL']; auto.
Qed.

(** X1: [find_best] returns [NULL] exactly on a cell without label;
    otherwise it returns a label of the cell whose utility no label of the
    cell exceeds. *)
Theorem find_best_is_maximal (B : L_list) :
  (find_best B = None <-> B = [])
  /\ (forall L, find_best B = Some L ->
                In L B /\ forall L', In L' B -> (utility L' <= utility L)%Q).
Proof.
  unfold find_best. destruct B as [|element next]; simpl.
  - split; [tauto|]. discriminate.
  - split.
    + split; [|discriminate]. intros H.
      destruct (find_best_loop next (Some (utility element)) (Some element))
        as [L|] eqn:E; [discriminate|].
      exfalso. clear H. revert element E.
      induction next as [|e next IH]; intros element; simpl; [discriminate|].
      destruct (negb (Qle_bool (utility e) (utility element))); apply IH.
    + intros L H. destruct (find_best_loop_max _ _ _ H) as (Hin & Hle & Hall).
      split; [destruct Hin as [->|Hin]; auto|].
      intros L' [<-|HL']; auto.
Qed.

(** ** Dominance as an order *)

Lemma dominates_2_iff (L1 L2 : Label) :
  dominates (Some L1) (Some L2) = 2 <-> dominance_conditions L1 L2.
Proof.
  unfold dominates, dominance_conditions, dom_mem_contains.
  destruct (Z.eqb_spec (act_id L1) (act_id L2)) as [Hid|Hid]; simpl.
  - destruct (Qle_bool (utility L2) (utility L1)) eqn:Hu;
      destruct (dom_mem_loop (mem L2) (mem L1)) eqn:Hm;
      destruct (Z.leb_spec (time L1) (time L2)) as [Ht|Ht]; simpl;
      rewrite <- Qle_bool_iff, <- dom_mem_loop_incl, Hu, Hm;
      split; try discriminate; try tauto;
      intros (_ & H1 & H2 & H3); try discriminate; lia.
  - split; [discriminate | tauto].
Qed.

(** X2: the dominance of [scheduling.c] is transitive. *)
Theorem dominates_transitive (L1 L2 L3 : Label) :
  dominates (Some L1) (Some L2) = 2 ->
  dominates (Some L2) (Some L3) = 2 ->
  dominates (Some L1) (Some L3) = 2.
Proof.
  rewrite !dominates_2_iff. unfold dominance_conditions.
  intros (Hid & Hm & Hu & Ht) (Hid' & Hm' & Hu' & Ht').
  split; [congruence|]. split; [|split].
  - intros g Hg. apply Hm, Hm', Hg.
  - apply (Qle_trans _ _ _ Hu' Hu).
  - lia.
Qed.

Lemma dominates_transitive_witness :
  let L1 := set_utility Examples.seed 2 in
  let L2 := set_utility Examples.seed 1 in
  let L3 := Examples.seed in
  dominates (Some L1) (Some L2) = 2
  /\ dominates (Some L2) (Some L3) = 2
  /\ dominates (Some L1) (Some L3) = 2.
Proof.
  assert (dominates (Some (set_utility Examples.seed 2))
            (Some (set_utility Examples.seed 1)) = 2) as H12 by reflexivity.
  assert (dominates (Some (set_utility Examples.seed 1))
            (Some Examples.seed) = 2) as H23 by reflexivity.
  split; [exact H12|]. split; [exact H23|].
  exact (dominates_transitive _ _ _ H12 H23).
Defined.

Lemma dominates_reflexive (L : Label) : dominates (Some L) (Some L) = 2.
Proof.
  apply dominates_2_iff. unfold dominance_conditions.
  split; [reflexivity|]. split; [apply incl_refl|].
  split; [apply Qle_refl | lia].
Qed.

(** X3: two labels that dominate each other are at the same activity and
    time, with equal utility and the same groups in memory. *)
Theorem dominates_antisymmetric (L1 L2 : Label) :
  dominates (Some L1) (Some L2) = 2 ->
  dominates (Some L2) (Some L1) = 2 ->
  act_id L1 = act_id L2 /\ time L1 = time L2
  /\ (utility L1 == utility L2)%Q
  /\ (forall g, In g (mem L1) <-> In g (mem L2)).
Proof.
  rewrite !dominates_2_iff. unfold dominance_conditions.
  intros (Hid & Hm & Hu & Ht) (_ & Hm' & Hu' & Ht').
  split; [exact Hid|]. split; [lia|]. split; [apply Qle_antisym; assumption|].
  intros g; split; [apply Hm' | apply Hm].
Qed.

Lemma dominates_antisymmetric_witness :
  let L1 := Examples.seed in
  let L2 := set_utility Examples.seed (0 # 2) in
  dominates (Some L1) (Some L2) = 2
  /\ dominates (Some L2) (Some L1) = 2
  /\ (utility L1 == utility L2)%Q.
Proof.
  assert (dominates (Some Examples.seed)
            (Some (set_utility Examples.seed (0 # 2))) = 2) as H12
    by reflexivity.
  assert (dominates (Some (set_utility Examples.seed (0 # 2)))
            (Some Examples.seed) = 2) as H21 by reflexivity.
  split; [exact H12|]. split; [exact H21|].
  exact (proj1 (proj2 (proj2 (dominates_antisymmetric _ _ H12 H21)))).
Defined.

(** ** The lists of groups *)

Lemma common_nodes_length (head1 head2 : Group_mem) :
  (length (common_nodes head1 head2) <= length head1)%nat.
Proof.
  induction head1 as [|g head1 IH]; simpl; [lia|].
  destruct (found_in g head2); simpl; lia.
Qed.

(** X4: the list that [unionLinkedLists] builds is never empty: it ends
    with the node [pipi], after nodes that are in both lists, at most as
    many as [head1] has. *)
Theorem unionLinkedLists_ends_with_pipi (head1 head2 : Group_mem) (pipi : Z) :
  exists kept,
    unionLinkedLists head1 head2 pipi = kept ++ [pipi]
    /\ (forall g, In g kept -> In g head1 /\ In g head2)
    /\ (length kept <= length head1)%nat.
Proof.
  unfold unionLinkedLists.
  destruct head1 as [|g1 head1].
  { exists []. split; [reflexivity|]. split; [intros g []|]. simpl; lia. }
  destruct head2 as [|g2 head2].
  { exists []. split; [reflexivity|]. split; [intros g []|]. simpl; lia. }
  exists (common_nodes (g1 :: head1) (g2 :: head2)).
  split; [reflexivity|]. split.
  - intros g. apply common_nodes_In.
  - apply common_nodes_length.
Qed.

(** ** [add_memory] and [DSSR] write by appending *)

Lemma extends_memory_refl (a : Activity) : extends_memory a a.
Proof.
  exists []. rewrite app_nil_r. destruct a; reflexivity.
Qed.

Lemma extends_memory_trans (a b c : Activity) :
  extends_memory a b -> extends_memory b c -> extends_memory a c.
Proof.
  intros [m1 ->] [m2 ->]. exists (m1 ++ m2).
  unfold set_memory. simpl. rewrite app_assoc. reflexivity.
Qed.

Lemma Forall2_extends_refl (acts : list Activity) :
  Forall2 extends_memory acts acts.
Proof.
  induction acts; constructor; [apply extends_memory_refl | assumption].
Qed.

Lemma Forall2_extends_trans (l1 : list Activity) :
  forall l2 l3,
    Forall2 extends_memory l1 l2 -> Forall2 extends_memory l2 l3 ->
    Forall2 extends_memory l1 l3.
Proof.
  induction l1 as [|a l1 IH]; intros l2 l3 H12 H23;
    inversion H12; subst; inversion H23; subst; constructor.
  - eapply extends_memory_trans; eassumption.
  - eapply IH; eassumption.
Qed.

Lemma update_nth_extends (n : nat) :
  forall acts c, Forall2 extends_memory acts (update_nth n acts c).
Proof.
  induction n as [|n IH]; intros [|a rest] c; simpl; try constructor.
  - exists [c]. reflexivity.
  - apply Forall2_extends_refl.
  - apply extends_memory_refl.
  - apply IH.
Qed.

Lemma add_memory_extends (acts : list Activity) (at_ c : Z) :
  Forall2 extends_memory acts (add_memory acts at_ c).
Proof.
  unfold add_memory. destruct (at_ <? 0).
  - apply Forall2_extends_refl.
  - apply update_nth_extends.
Qed.

Lemma add_memory_loop_extends (c g : Z) (p3 : Label) :
  forall acts, Forall2 extends_memory acts (add_memory_loop c g p3 acts).
Proof.
  induction p3 as [p3 Hp|p3 q Hp IH] using Label_chain_ind; intros acts;
    destruct p3; simpl in *; subst;
    (destruct (_ =? c); [apply Forall2_extends_refl|]).
  - apply add_memory_extends.
  - eapply Forall2_extends_trans; [apply add_memory_extends | apply IH].
Qed.

(** X5: [DSSR] returns 0 or 1 and changes the activities only by appending
    nodes to their memories: it removes no forbidden group and touches no
    other field; when it returns 0 it changes nothing. *)
Theorem DSSR_only_appends (G : Globals) (L : option Label) (cycle : Z)
  (acts' : list Activity) :
  DSSR G L = Some (cycle, acts') ->
  (cycle = 0 \/ cycle = 1)
  /\ Forall2 extends_memory (activities G) acts'
  /\ (cycle = 0 -> acts' = activities G).
Proof.
  unfold DSSR. destruct L as [L|].
  2:{ intros [= <- <-]. split; [auto|].
      split; [apply Forall2_extends_refl | reflexivity]. }
  destruct (find_cycle G L) as [|c g p1|].
  - intros [= <- <-]. split; [auto|].
    split; [apply Forall2_extends_refl | reflexivity].
  - intros [= <- <-]. split; [auto|]. split; [|discriminate].
    destruct p1 as [p|]; [|apply Forall2_extends_refl].
    destruct (skip_activity c p) as [p3|]; [|apply Forall2_extends_refl].
    apply add_memory_loop_extends.
  - discriminate.
Qed.

Lemma DSSR_only_appends_witness :
  let G := Examples.home_day [] in
  DSSR G (Some Examples.day_end) = Some (1, activities (Examples.home_day [0]))
  /\ Forall2 extends_memory (activities G)
       (activities (Examples.home_day [0])).
Proof.
  assert (DSSR (Examples.home_day []) (Some Examples.day_end)
          = Some (1, activities (Examples.home_day [0]))) as H
    by (vm_compute; reflexivity).
  split; [exact H|].
  exact (proj1 (proj2 (DSSR_only_appends _ _ _ _ H))).
Defined.

Lemma earlier_trans (L : Label) :
  forall p q, In p (earlier L) -> In q (earlier p) -> In q (earlier L).
Proof.
  induction L as [L HL|L r HL IH] using Label_chain_ind; intros p q;
    destruct L; simpl in *; subst; simpl.
  - contradiction.
  - intros [<-|Hp] Hq; [right; exact Hq|].
    right. apply (IH p q Hp Hq).
Qed.

Lemma skip_activity_found (c : Z) (p : Label) :
  forall q, skip_activity c p = Some q ->
            act_id q <> c /\ (q = p \/ In q (earlier p)).
Proof.
  induction p as [p Hp|p r Hp IH] using Label_chain_ind; intros q;
    destruct p; simpl in *; subst; simpl;
    (destruct (Z.eqb_spec act_id0 c) as [Hc|Hc];
     [|intros [= <-]; simpl; split; [exact Hc | auto]]).
  - discriminate.
  - intros H. destruct (IH q H) as [Hq [->|Hin]]; split; auto.
Qed.

Lemma update_nth_nodes (n : nat) :
  forall acts c,
    length (update_nth n acts c) = length acts
    /\ (memory_nodes acts <= memory_nodes (update_nth n acts c))%nat
    /\ ((n < length acts)%nat ->
        memory_nodes (update_nth n acts c) = S (memory_nodes acts)).
Proof.
  induction n as [|n IH]; intros [|a rest] c; simpl.
  - split; [reflexivity|]. split; lia.
  - unfold append_node. rewrite length_app. simpl.
    split; [reflexivity|]. split; lia.
  - split; [reflexivity|]. split; lia.
  - destruct (IH rest c) as (Hlen & Hle & Hlt).
    split; [lia|]. split; [lia|]. intros H. rewrite Hlt; lia.
Qed.

Lemma add_memory_nodes (acts : list Activity) (at_ c : Z) :
  length (add_memory acts at_ c) = length acts
  /\ (memory_nodes acts <= memory_nodes (add_memory acts at_ c))%nat
  /\ (0 <= at_ < Z.of_nat (length acts) ->
      memory_nodes (add_memory acts at_ c) = S (memory_nodes acts)).
Proof.
  unfold add_memory. destruct (Z.ltb_spec at_ 0) as [Hneg|Hpos].
  - split; [reflexivity|]. split; lia.
  - destruct (update_nth_nodes (Z.to_nat at_) acts c) as (Hlen & Hle & Hlt).
    split; [exact Hlen|]. split; [exact Hle|].
    intros H. apply Hlt. lia.
Qed.

Lemma add_memory_loop_nodes (c g : Z) (p3 : Label) :
  forall acts,
    length (add_memory_loop c g p3 acts) = length acts
    /\ (memory_nodes acts <= memory_nodes (add_memory_loop c g p3 acts))%nat.
Proof.
  induction p3 as [p3 Hp|p3 q Hp IH] using Label_chain_ind; intros acts;
    destruct p3; simpl in *; subst;
    (destruct (_ =? c); [split; [reflexivity | lia]|]);
    destruct (add_memory_nodes acts act_id0 g) as (Hlen & Hle & _).
  - split; [exact Hlen | exact Hle].
  - destruct (IH (add_memory acts act_id0 g)) as (Hlen' & Hle').
    split; lia.
Qed.

Lemma add_memory_loop_adds (c g : Z) (p3 : Label) (acts : list Activity) :
  act_id p3 <> c ->
  0 <= act_id p3 < Z.of_nat (length acts) ->
  (memory_nodes acts < memory_nodes (add_memory_loop c g p3 acts))%nat.
Proof.
  intros Hc Hidx.
  destruct (add_memory_nodes acts (act_id p3) g) as (_ & _ & Hadd).
  specialize (Hadd Hidx).
  destruct p3; simpl in *.
  apply Z.eqb_neq in Hc. rewrite Hc.
  destruct previous0 as [q|]; [|lia].
  destruct (add_memory_loop_nodes c g q (add_memory acts act_id0 g))
    as (_ & Hle). lia.
Qed.

(** The cycle that [find_cycle] reports is at a label of the chain whose
    predecessors hold a label of another activity. *)
Lemma find_cycle_found (G : Globals) (L : Label) :
  forall c g p1,
    find_cycle G L = Cycle c g p1 ->
    exists q p2, p1 = Some q /\ In q (earlier L)
                 /\ skip_activity c q = Some p2.
Proof.
  induction L as [L HL|L r HL IH] using Label_chain_ind; intros c g p1;
    destruct L; simpl in *; subst; simpl;
    destruct (is_last_activity G _); try discriminate;
    destruct (Z.eqb_spec act_id0 act_id0) as [_|Hne]; try congruence.
  - intros H. destruct (IH _ _ _ H) as (q & p2 & -> & Hin & Hskip).
    exists q, p2. auto.
  - destruct (skip_activity act_id0 r) as [p2|] eqn:Hskip.
    + destruct (group_seen_before _ p2).
      * intros [= <- <- <-]. exists r, p2. auto.
      * intros H. destruct (IH _ _ _ H) as (q & p2' & -> & Hin & Hskip').
        exists q, p2'. auto.
    + intros H. destruct (IH _ _ _ H) as (q & p2' & -> & Hin & Hskip').
      exists q, p2'. auto.
Qed.

(** X6: when [DSSR] reports a cycle on a chain whose activity ids are
    indices of the array, it appends at least one node: the memories hold
    more nodes afterwards, though not always more groups. *)
Theorem DSSR_cycle_appends_a_node (G : Globals) (L : Label)
  (acts' : list Activity) :
  DSSR G (Some L) = Some (1, acts') ->
  (forall p, In p (L :: earlier L) ->
             0 <= act_id p < Z.of_nat (length (activities G))) ->
  (memory_nodes (activities G) < memory_nodes acts')%nat.
Proof.
  unfold DSSR. intros H Hidx.
  destruct (find_cycle G L) as [|c g p1|] eqn:Hcycle; try discriminate.
  destruct (find_cycle_found G L c g p1 Hcycle)
    as (q & p2 & -> & Hq & Hskip).
  rewrite Hskip in H. injection H as <-.
  destruct (skip_activity_found c q p2 Hskip) as [Hc Hp2].
  apply add_memory_loop_adds; [exact Hc|].
  apply Hidx. right.
  destruct Hp2 as [->|Hp2]; [exact Hq|].
  apply (earlier_trans L q p2 Hq Hp2).
Qed.

Lemma DSSR_cycle_appends_a_node_witness :
  let G := Examples.home_day [0] in
  DSSR G (Some Examples.day_end) = Some (1, activities (Examples.home_day [0; 0]))
  /\ (memory_nodes (activities G)
      < memory_nodes (activities (Examples.home_day [0%Z; 0%Z])))%nat.
Proof.
  assert (DSSR (Examples.home_day [0]) (Some Examples.day_end)
          = Some (1, activities (Examples.home_day [0; 0]))) as H
    by (vm_compute; reflexivity).
  split; [exact H|].
  apply (DSSR_cycle_appends_a_node _ _ _ H).
  intros p Hp. simpl in Hp.
  destruct Hp as [<-|[<-|[<-|[]]]]; vm_compute;
    (split; [discriminate | reflexivity]).
Defined.

(** ** When [DSSR] is defined *)

Lemma earlier_unfold (L : Label) :
  earlier L = match previous L with
              | Some p => p :: earlier p
              | None => []
              end.
Proof. destruct L; reflexivity. Qed.

Lemma find_cycle_unfold (G : Globals) (L : Label) :
  find_cycle G L
  = if is_last_activity G L then
      match previous L with
      | Some q => find_cycle G q
      | None => NullDereference
      end
    else if match skip_activity (act_id L) L with
            | Some p2 => group_seen_before (activity_type (act L)) p2
            | None => false
            end
         then Cycle (act_id L) (activity_type (act L)) (previous L)
    else match previous L with
         | Some q => find_cycle G q
         | None => NoCycle
         end.
Proof. destruct L; reflexivity. Qed.

Lemma find_cycle_null (G : Globals) (L : Label) :
  find_cycle G L = NullDereference ->
  exists r, In r (L :: earlier L) /\ previous r = None
            /\ is_last_activity G r = true.
Proof.
  induction L as [L HL|L r HL IH] using Label_chain_ind;
    rewrite find_cycle_unfold, earlier_unfold, HL;
    destruct (is_last_activity G L) eqn:E.
  - intros _. exists L. split; [left; reflexivity | auto].
  - destruct (match skip_activity (act_id L) L with
              | Some p2 => group_seen_before (activity_type (act L)) p2
              | None => false
              end); discriminate.
  - intros H. destruct (IH H) as (r' & Hin & Hprev & Hlast).
    exists r'. split; [right; exact Hin | auto].
  - destruct (match skip_activity (act_id L) L with
              | Some p2 => group_seen_before (activity_type (act L)) p2
              | None => false
              end); [discriminate|].
    intros H. destruct (IH H) as (r' & Hin & Hprev & Hlast).
    exists r'. split; [right; exact Hin | auto].
Qed.

Section RunChains.

Context {libm : Libm}.
Variable G : Globals.

Lemma earlier_update (L : Label) (a : Activity) :
  earlier (update_label_from_activity G L a) = L :: earlier L.
Proof.
  rewrite earlier_unfold.
  destruct (update_act G L a) as (_ & _ & ->). reflexivity.
Qed.

(** The chain of a label of a run starts at the seed label, whose
    [act_id] is 0. *)
Lemma reachable_first_label (L : Label) :
  reachable G L ->
  forall r, In r (L :: earlier L) -> previous r = None -> act_id r = 0.
Proof.
  intros Hreach. induction Hreach as [dawn _|L a _ IH _ _]; intros r.
  - simpl. intros [<-|[]] _. reflexivity.
  - rewrite earlier_update. intros [<-|Hin] Hprev.
    + destruct (update_act G L a) as (_ & _ & Hp). congruence.
    + apply (IH r Hin Hprev).
Qed.

(** X7: on a label of a run, [DSSR] never dereferences [NULL] when there
    are three activities or more (or none): the seed label, of activity 0,
    is then not one of the labels it skips. *)
Theorem DSSR_defined_on_runs (L : Label) :
  num_activities G <> 1 ->
  num_activities G <> 2 ->
  reachable G L ->
  DSSR G (Some L) <> None.
Proof.
  intros H1 H2 Hreach. unfold DSSR.
  destruct (find_cycle G L) eqn:E; try discriminate.
  exfalso.
  destruct (find_cycle_null G L E) as (r & Hin & Hprev & Hlast).
  pose proof (reachable_first_label L Hreach r Hin Hprev) as H0.
  unfold is_last_activity in Hlast. rewrite H0 in Hlast.
  apply orb_true_iff in Hlast. destruct Hlast as [H|H];
    apply Z.eqb_eq in H; lia.
Qed.

End RunChains.

Lemma DSSR_defined_on_runs_witness :
  let G := Examples.dawn_charge_dusk in
  num_activities G <> 1 /\ num_activities G <> 2
  /\ DSSR G (Some Examples.charging_2) <> None.
Proof.
  assert (num_activities Examples.dawn_charge_dusk <> 1) as H1
    by discriminate.
  assert (num_activities Examples.dawn_charge_dusk <> 2) as H2
    by discriminate.
  split; [exact H1|]. split; [exact H2|].
  exact (DSSR_defined_on_runs (libm := isqrt_libm) Examples.dawn_charge_dusk
           Examples.charging_2 H1 H2 example_run_reachable).
Defined.

Lemma find_cycle_all_last (G : Globals) (L : Label) :
  (forall r, In r (L :: earlier L) -> is_last_activity G r = true) ->
  find_cycle G L = NullDereference.
Proof.
  induction L as [L HL|L r HL IH] using Label_chain_ind;
    rewrite find_cycle_unfold, earlier_unfold, HL; intros H;
    rewrite (H L (or_introl eq_refl)); [reflexivity|].
  apply IH. intros r' Hr'. apply H. right. exact Hr'.
Qed.

Section TwoActivities.

Context {libm : Libm}.
Variable G : Globals.

Lemma reachable_act_ids (L : Label) :
  reachable G L ->
  forall r, In r (L :: earlier L) ->
            act_id r = 0 \/ exists a, In a (activities G) /\ act_id r = id a.
Proof.
  intros Hreach. induction Hreach as [dawn _|L a _ IH Hin _]; intros r.
  - simpl. intros [<-|[]]. left. reflexivity.
  - rewrite earlier_update. intros [<-|Hr]; [|apply (IH r Hr)].
    right. exists a. split; [exact Hin|].
    destruct (update_act G L a) as (_ & -> & _). reflexivity.
Qed.

(** X8: with two activities only, numbered 0 and 1 (dawn and dusk),
    [DSSR] dereferences [NULL] on every label of a run: it skips the labels
    of the last two activities, which are all the labels, and then reads
    [p1->previous]. *)
Theorem DSSR_null_dereference_two_activities (L : Label) :
  num_activities G = 2 ->
  (forall a, In a (activities G) -> id a = 0 \/ id a = 1) ->
  reachable G L ->
  DSSR G (Some L) = None.
Proof.
  intros HN Hids Hreach. unfold DSSR.
  rewrite find_cycle_all_last; [reflexivity|].
  intros r Hr. unfold is_last_activity. rewrite HN.
  destruct (reachable_act_ids L Hreach r Hr) as [->|(a & Ha & ->)];
    [reflexivity|].
  destruct (Hids a Ha) as [->| ->]; reflexivity.
Qed.

End TwoActivities.

Lemma DSSR_null_dereference_two_activities_witness :
  let G := Examples.dawn_dusk in
  num_activities G = 2
  /\ (forall a, In a (activities G) -> id a = 0 \/ id a = 1)
  /\ is_feasible (libm := isqrt_libm) G (Some (create_label G Examples.dawn))
       Examples.dusk_1 = true
  /\ DSSR G (Some Examples.dawn_then_dusk) = None.
Proof.
  assert (num_activities Examples.dawn_dusk = 2) as HN by reflexivity.
  assert (forall a, In a (activities Examples.dawn_dusk) ->
                    id a = 0 \/ id a = 1) as Hids.
  { intros a [<-|[<-|[]]]; [left | right]; reflexivity. }
  assert (is_feasible (libm := isqrt_libm) Examples.dawn_dusk
            (Some (create_label Examples.dawn_dusk Examples.dawn))
            Examples.dusk_1 = true) as Hfeas by (vm_compute; reflexivity).
  split; [exact HN|]. split; [exact Hids|]. split; [exact Hfeas|].
  apply (DSSR_null_dereference_two_activities (libm := isqrt_libm)
           Examples.dawn_dusk Examples.dawn_then_dusk HN Hids).
  unfold Examples.dawn_then_dusk.
  apply reachable_step;
    [apply reachable_seed; reflexivity | right; left; reflexivity
     | exact Hfeas].
Defined.

(** ** What a return of 0 from [DSSR] tells *)

Lemma group_seen_before_unfold (g : Z) (p2 : Label) :
  group_seen_before g p2
  = if activity_type (act p2) =? g then true
    else match previous p2 with
         | Some q => group_seen_before g q
         | None => false
         end.
Proof. destruct p2; reflexivity. Qed.

Lemma skip_activity_unfold (c : Z) (p : Label) :
  skip_activity c p
  = if act_id p =? c then
      match previous p with
      | Some q => skip_activity c q
      | None => None
      end
    else Some p.
Proof. destruct p; reflexivity. Qed.

Lemma group_seen_before_false (g : Z) (p2 : Label) :
  group_seen_before g p2 = false ->
  forall q, In q (p2 :: earlier p2) -> activity_type (act q) <> g.
Proof.
  induction p2 as [p2 Hp|p2 r Hp IH] using Label_chain_ind;
    rewrite group_seen_before_unfold, earlier_unfold, Hp;
    destruct (Z.eqb_spec (activity_type (act p2)) g) as [|Hne];
    try discriminate; intros H q [<-|Hq]; auto.
Qed.

Lemma skip_activity_keeps (c : Z) (p : Label) :
  forall q, In q (p :: earlier p) -> act_id q <> c ->
            exists p2, skip_activity c p = Some p2
                       /\ In q (p2 :: earlier p2).
Proof.
  induction p as [p Hp|p r Hp IH] using Label_chain_ind; intros q;
    rewrite skip_activity_unfold, earlier_unfold, Hp;
    destruct (Z.eqb_spec (act_id p) c) as [Hc|Hc].
  - intros [<-|[]] Hq. contradiction.
  - intros Hin _. exists p. rewrite earlier_unfold, Hp. auto.
  - intros [<-|Hin] Hq; [contradiction|]. apply (IH q Hin Hq).
  - intros Hin _. exists p. rewrite (earlier_unfold p), Hp. auto.
Qed.

(** X9: when [DSSR] returns 0, no label of the chain, unless it is at one
    of the last two activities, has the group of an earlier label of
    another activity. *)
Theorem DSSR_zero_no_repeated_group (G : Globals) (L : Label)
  (acts' : list Activity) :
  DSSR G (Some L) = Some (0, acts') ->
  forall p q,
    In p (L :: earlier L) ->
    is_last_activity G p = false ->
    In q (earlier p) ->
    act_id q <> act_id p ->
    group (act q) <> group (act p).
Proof.
  unfold DSSR. intros H.
  assert (find_cycle G L = NoCycle) as Hno
    by (destruct (find_cycle G L); congruence).
  clear H. revert Hno.
  induction L as [L HL|L r HL IH] using Label_chain_ind;
    rewrite find_cycle_unfold, (earlier_unfold L), HL;
    destruct (is_last_activity G L) eqn:Elast; try discriminate.
  - destruct (match skip_activity (act_id L) L with
              | Some p2 => group_seen_before (activity_type (act L)) p2
              | None => false
              end); [discriminate|].
    intros _ p q [<-|[]] _ Hq. rewrite earlier_unfold, HL in Hq.
    destruct Hq.
  - intros Hno p q [<-|Hp] Hplast Hq Hid; [congruence|].
    apply (IH Hno p q Hp); auto.
  - destruct (match skip_activity (act_id L) L with
              | Some p2 => group_seen_before (activity_type (act L)) p2
              | None => false
              end) eqn:Ecycle; [discriminate|].
    intros Hno p q [<-|Hp] Hplast Hq Hid; [|apply (IH Hno p q Hp); auto].
    assert (In q (L :: earlier L)) as Hq' by (right; exact Hq).
    destruct (skip_activity_keeps (act_id L) L q Hq' Hid)
      as (p2 & Hskip & Hin).
    rewrite Hskip in Ecycle.
    apply (group_seen_before_false _ _ Ecycle q Hin).
Qed.

Lemma DSSR_zero_no_repeated_group_witness :
  let G := Examples.work_day in
  DSSR G (Some Examples.work_day_end) = Some (0, activities G)
  /\ In Examples.work_day_at_work
       (Examples.work_day_end :: earlier Examples.work_day_end)
  /\ is_last_activity G Examples.work_day_at_work = false
  /\ In Examples.work_day_seed (earlier Examples.work_day_at_work)
  /\ act_id Examples.work_day_seed <> act_id Examples.work_day_at_work
  /\ group (act Examples.work_day_seed)
     <> group (act Examples.work_day_at_work).
Proof.
  assert (DSSR Examples.work_day (Some Examples.work_day_end)
          = Some (0, activities Examples.work_day)) as H
    by (vm_compute; reflexivity).
  assert (In Examples.work_day_at_work
            (Examples.work_day_end :: earlier Examples.work_day_end)) as Hp
    by (right; left; reflexivity).
  assert (is_last_activity Examples.work_day Examples.work_day_at_work
          = false) as Hlast by reflexivity.
  assert (In Examples.work_day_seed (earlier Examples.work_day_at_work))
    as Hq by (left; reflexivity).
  assert (act_id Examples.work_day_seed
          <> act_id Examples.work_day_at_work) as Hid by discriminate.
  split; [exact H|]. split; [exact Hp|]. split; [exact Hlast|].
  split; [exact Hq|]. split; [exact Hid|].
  exact (DSSR_zero_no_repeated_group _ _ _ H _ _ Hp Hlast Hq Hid).
Defined.

(** ** The labels of a run: times *)

Section RunTimes.

Context {libm : Libm}.
Variable G : Globals.

Lemma transition_fields (L : Label) (a : Activity) :
  id a <> act_id L ->
  let L' := update_label_from_activity G L a in
  let soc_start := (current_soc L - energy_consumed_soc (act L) a)%Q in
  let rate := fst (get_charge_rate_and_price G a) in
  let price := snd (get_charge_rate_and_price G a) in
  let delta := fmin (soc_full - soc_start) rate in
  start_time L' = time L + travel_time G (act L) a
  /\ duration L'
     = (if id a =? num_activities G - 1
        then horizon G - start_time L' - 1 else min_duration a)
  /\ time L'
     = (if id a =? num_activities G - 1
        then horizon G - 1 else start_time L' + min_duration a)
  /\ soc_at_activity_start L' = soc_start
  /\ current_soc L' = (if is_charging a then soc_start + delta else soc_start)%Q
  /\ delta_soc L' = (if is_charging a then delta else 0)%Q
  /\ charge_cost L'
     = (if is_charging a
        then charge_cost L
             + price * get_tou_factor G (start_time L')
               * (delta * battery_capacity)
        else charge_cost L)%Q.
Proof.
  intros H. unfold update_label_from_activity, charge_step.
  apply Z.eqb_neq in H. rewrite H. simpl.
  destruct (get_charge_rate_and_price G a) as [rate price]. simpl.
  destruct (id a =? num_activities G - 1); repeat split; reflexivity.
Qed.

Lemma continuation_charging_fields (L : Label) (a : Activity) :
  id a = act_id L ->
  let L' := update_label_from_activity G L a in
  let rate := fst (get_charge_rate_and_price G a) in
  let price := snd (get_charge_rate_and_price G a) in
  let delta := fmin (soc_full - current_soc L) rate in
  let charging :=
    is_charging a && negb (Qle_bool soc_full (current_soc L)) in
  start_time L' = start_time L
  /\ soc_at_activity_start L' = soc_at_activity_start L
  /\ current_soc L' = (if charging then current_soc L + delta
                       else current_soc L)%Q
  /\ delta_soc L' = (if charging then delta else 0)%Q
  /\ charge_cost L'
     = (if charging
        then charge_cost L
             + price * get_tou_factor G (time L + time_interval G)
               * (delta * battery_capacity)
        else charge_cost L)%Q.
Proof.
  intros H. unfold update_label_from_activity, charge_step.
  apply Z.eqb_eq in H. rewrite H. simpl.
  destruct (get_charge_rate_and_price G a) as [rate price]. simpl.
  repeat split; reflexivity.
Qed.

(** X10: on every label of a run, [time] is [start_time + duration]; this
    holds at dusk too, whose duration is what is left of the horizon. *)
Theorem time_is_start_plus_duration (L : Label) :
  reachable G L ->
  time L = start_time L + duration L.
Proof.
  intros Hreach. induction Hreach as [dawn _|L a _ IH _ _].
  - reflexivity.
  - destruct (Z.eq_dec (id a) (act_id L)) as [Hid|Hid].
    + destruct (continuation_fields G L a Hid) as (-> & -> & _).
      destruct (continuation_charging_fields L a Hid) as (-> & _). lia.
    + destruct (transition_fields L a Hid) as (Hs & -> & -> & _).
      destruct (id a =? num_activities G - 1); lia.
Qed.

Lemma travel_time_nonneg (a b : Activity) :
  (0 < speed G)%Q -> 0 < time_interval G -> 0 <= travel_time G a b.
Proof.
  intros Hs Hti.
  rewrite (travel_time_ceiling G a b); [|lia].
  assert (0 <= int_of_double (distance_x a b / speed G)) as Hm.
  { apply int_of_double_nonneg. apply Qle_shift_div_l; [exact Hs|].
    rewrite Qmult_0_l. apply distance_x_nonneg. }
  rewrite <- (Qceiling_Z 0). apply Qceiling_resp_le.
  apply Qle_shift_div_l.
  - change 0%Q with (inject_Z 0). rewrite <- Zlt_Qlt. exact Hti.
  - rewrite Qmult_0_l. change 0%Q with (inject_Z 0).
    rewrite <- Zle_Qle. exact Hm.
Qed.

Lemma feasible_other_checks (L : Label) (a dusk : Activity) :
  feasible_other G L a dusk = true ->
  time L + travel_time G (act L) a + min_duration a + travel_time G a dusk
  < horizon G - 1
  /\ earliest_start a <= time L + travel_time G (act L) a
  /\ time L + travel_time G (act L) a <= latest_start a
  /\ min_duration (act L) <= duration L
  /\ act_id L <> num_activities G - 1.
Proof.
  unfold feasible_other. intros H.
  destruct (previous_is L a); [discriminate|].
  destruct (Z.eqb_spec (act_id L) (num_activities G - 1)); [discriminate|].
  destruct (Z.ltb_spec (duration L) (min_duration (act L))); [discriminate|].
  cbv zeta in H.
  destruct (Z.leb_spec (horizon G - 1)
              (time L + travel_time G (act L) a + min_duration a
               + travel_time G a dusk)); [discriminate|].
  destruct (Z.ltb_spec (time L + travel_time G (act L) a)
              (earliest_start a)); [discriminate|].
  destruct (Z.ltb_spec (latest_start a)
              (time L + travel_time G (act L) a)); [discriminate|].
  repeat split; assumption.
Qed.

Lemma feasible_transition (L : Label) (a : Activity) :
  id a <> act_id L ->
  is_feasible G (Some L) a = true ->
  exists dusk, activity_at G (num_activities G - 1) = Some dusk
               /\ feasible_other G L a dusk = true.
Proof.
  intros Hid. unfold is_feasible.
  destruct (negb (act_id L =? 0) && (id a =? 0)); [discriminate|].
  assert ((act_id L =? id a) = false) as -> by (apply Z.eqb_neq; congruence).
  destruct (activity_at G (num_activities G - 1)) as [dusk|]; [|discriminate].
  intros H. exists dusk. auto.
Qed.

(** X11: a feasible step never goes back in time, with a positive speed
    and time interval and an activity whose minimal duration is not
    negative; it goes forward when the minimal duration is positive. *)
Theorem feasible_step_moves_forward (L : Label) (a : Activity) :
  (0 < speed G)%Q ->
  0 < time_interval G ->
  0 <= min_duration a ->
  is_feasible G (Some L) a = true ->
  time L <= time (update_label_from_activity G L a)
  /\ (0 < min_duration a -> time L < time (update_label_from_activity G L a)).
Proof.
  intros Hs Hti Hmin Hfeas.
  destruct (Z.eq_dec (id a) (act_id L)) as [Hid|Hid].
  - destruct (continuation_fields G L a Hid) as (-> & _). lia.
  - destruct (feasible_transition L a Hid Hfeas) as (dusk & _ & Hother).
    destruct (feasible_other_checks L a dusk Hother) as (Hend & _).
    pose proof (travel_time_nonneg (act L) a Hs Hti) as Htt.
    pose proof (travel_time_nonneg a dusk Hs Hti) as Htd.
    destruct (transition_fields L a Hid) as (Hst & _ & -> & _).
    rewrite Hst. destruct (id a =? num_activities G - 1); lia.
Qed.

End RunTimes.

Lemma time_is_start_plus_duration_witness :
  time Examples.charging_2
  = start_time Examples.charging_2 + duration Examples.charging_2.
Proof.
  exact (time_is_start_plus_duration (libm := isqrt_libm)
           Examples.dawn_charge_dusk Examples.charging_2
           example_run_reachable).
Defined.

Lemma feasible_step_moves_forward_witness :
  let G := Examples.dawn_work_dusk in
  (0 < speed G)%Q /\ 0 < time_interval G /\ 0 < min_duration Examples.work
  /\ is_feasible (libm := isqrt_libm) G (Some Examples.seed) Examples.work
     = true
  /\ time Examples.seed
     < time (update_label_from_activity (libm := isqrt_libm) G Examples.seed
               Examples.work).
Proof.
  assert (0 < speed Examples.dawn_work_dusk)%Q as Hs by reflexivity.
  assert (0 < time_interval Examples.dawn_work_dusk) as Hti by reflexivity.
  assert (0 < min_duration Examples.work) as Hmin by reflexivity.
  assert (is_feasible (libm := isqrt_libm) Examples.dawn_work_dusk
            (Some Examples.seed) Examples.work = true) as Hfeas
    by (vm_compute; reflexivity).
  split; [exact Hs|]. split; [exact Hti|]. split; [exact Hmin|].
  split; [exact Hfeas|].
  apply (feasible_step_moves_forward (libm := isqrt_libm)
           Examples.dawn_work_dusk Examples.seed Examples.work Hs Hti);
    [discriminate | exact Hfeas | exact Hmin].
Defined.

(** ** The labels of a run: time windows and memory *)

Section RunWindows.

Context {libm : Libm}.
Variable G : Globals.

Lemma reachable_has_previous (L : Label) :
  reachable G L -> act_id L <> 0 -> has_previous L = true.
Proof.
  intros Hreach H0. destruct Hreach as [dawn _|L a _ _ _].
  - contradiction H0. reflexivity.
  - unfold has_previous.
    destruct (update_act G L a) as (_ & _ & ->). reflexivity.
Qed.

(** A continuation keeps the activity the label points to. *)
Lemma continuation_act (L : Label) (a : Activity) :
  NoDup (map id (activities G)) ->
  reachable G L ->
  In a (activities G) ->
  id a = act_id L ->
  act_id L <> 0 ->
  act L = a.
Proof.
  intros Hnd Hreach Hin Hid H0.
  apply (reachable_act G L a Hnd Hreach); auto.
  apply reachable_has_previous; assumption.
Qed.

(** X12: the ids of the array being unique, every label of a run at an
    activity other than the first began that activity inside its time
    window. *)
Theorem start_time_in_window (L : Label) :
  NoDup (map id (activities G)) ->
  reachable G L ->
  act_id L <> 0 ->
  earliest_start (act L) <= start_time L <= latest_start (act L).
Proof.
  intros Hnd Hreach. induction Hreach as [dawn _|L a Hreach IH Hin Hfeas].
  - intros H. contradiction H. reflexivity.
  - destruct (update_act G L a) as (-> & -> & _). intros H0.
    destruct (Z.eq_dec (id a) (act_id L)) as [Hid|Hid].
    + destruct (continuation_charging_fields G L a Hid) as (-> & _).
      assert (act_id L <> 0) as H0' by congruence.
      rewrite <- (continuation_act L a Hnd Hreach Hin Hid H0').
      apply IH. exact H0'.
    + destruct (feasible_transition G L a Hid Hfeas) as (dusk & _ & Hother).
      destruct (feasible_other_checks G L a dusk Hother) as (_ & H1 & H2 & _).
      destruct (transition_fields G L a Hid) as (-> & _). lia.
Qed.

Lemma transition_mem_has_group (L : Label) (a : Activity) :
  id a <> act_id L ->
  In (group a) (mem (update_label_from_activity G L a)).
Proof.
  intros Hid. rewrite (transition_mem G L a Hid).
  apply unionLinkedLists_In. right. reflexivity.
Qed.

Lemma reachable_mem_has_group (L : Label) :
  NoDup (map id (activities G)) ->
  reachable G L ->
  act_id L <> 0 ->
  In (group (act L)) (mem L).
Proof.
  intros Hnd Hreach. induction Hreach as [dawn _|L a Hreach IH Hin Hfeas].
  - intros H. contradiction H. reflexivity.
  - destruct (update_act G L a) as (Hact & Hactid & _).
    rewrite Hact, Hactid. intros H0.
    destruct (Z.eq_dec (id a) (act_id L)) as [Hid|Hid].
    + destruct (continuation_fields G L a Hid) as (_ & _ & _ & ->).
      assert (act_id L <> 0) as H0' by congruence.
      rewrite <- (continuation_act L a Hnd Hreach Hin Hid H0').
      apply IH. exact H0'.
    + apply transition_mem_has_group. exact Hid.
Qed.

(** X13: the ids of the array being unique, the memory of a label of a run
    at an activity other than the first holds the group of that activity;
    so the run never moves from it to another activity of the same group,
    unless the group is 0. *)
Theorem same_group_successor_is_infeasible (L : Label) (a : Activity) :
  NoDup (map id (activities G)) ->
  reachable G L ->
  act_id L <> 0 ->
  id a <> act_id L ->
  group a = group (act L) ->
  group a <> 0 ->
  In (group (act L)) (mem L) /\ is_feasible G (Some L) a = false.
Proof.
  intros Hnd Hreach H0 Hid Hgroup Hg0.
  pose proof (reachable_mem_has_group L Hnd Hreach H0) as Hmem.
  split; [exact Hmem|].
  unfold is_feasible.
  destruct (negb (act_id L =? 0) && (id a =? 0)); [reflexivity|].
  assert ((act_id L =? id a) = false) as -> by (apply Z.eqb_neq; congruence).
  destruct (activity_at G (num_activities G - 1)) as [dusk|]; [|reflexivity].
  apply feasible_other_mem. apply mem_contains_true; [exact Hg0|].
  rewrite Hgroup. exact Hmem.
Qed.

End RunWindows.

Lemma dawn_charge_dusk_unique_ids :
  NoDup (map id (activities Examples.dawn_charge_dusk)).
Proof. simpl. repeat constructor; simpl; intuition discriminate. Defined.

Lemma start_time_in_window_witness :
  NoDup (map id (activities Examples.dawn_charge_dusk))
  /\ act_id Examples.charging_2 <> 0
  /\ earliest_start (act Examples.charging_2)
     <= start_time Examples.charging_2
     <= latest_start (act Examples.charging_2).
Proof.
  assert (act_id Examples.charging_2 <> 0) as H0 by discriminate.
  split; [exact dawn_charge_dusk_unique_ids|]. split; [exact H0|].
  exact (start_time_in_window (libm := isqrt_libm) Examples.dawn_charge_dusk
           Examples.charging_2 dawn_charge_dusk_unique_ids
           example_run_reachable H0).
Defined.

Lemma same_group_successor_is_infeasible_witness :
  let a := Examples.create_test_activity 3 0 0 6 0 276 10 144 98 80 in
  NoDup (map id (activities Examples.dawn_charge_dusk))
  /\ act_id Examples.charging_2 <> 0
  /\ id a <> act_id Examples.charging_2
  /\ group a = group (act Examples.charging_2)
  /\ group a <> 0
  /\ is_feasible (libm := isqrt_libm) Examples.dawn_charge_dusk
       (Some Examples.charging_2) a = false.
Proof.
  assert (act_id Examples.charging_2 <> 0) as H0 by discriminate.
  assert (3 <> act_id Examples.charging_2) as Hid by discriminate.
  assert (6 = group (act Examples.charging_2)) as Hg by reflexivity.
  assert (6 <> 0) as Hg0 by discriminate.
  split; [exact dawn_charge_dusk_unique_ids|]. split; [exact H0|].
  split; [exact Hid|]. split; [exact Hg|]. split; [exact Hg0|].
  exact (proj2 (same_group_successor_is_infeasible (libm := isqrt_libm)
                  Examples.dawn_charge_dusk Examples.charging_2
                  (Examples.create_test_activity 3 0 0 6 0 276 10 144 98 80)
                  dawn_charge_dusk_unique_ids example_run_reachable
                  H0 Hid Hg Hg0)).
Defined.

(** ** The labels of a run: charging *)

Lemma fmin_zero_rate (room rate : Q) :
  (0 <= room)%Q -> (rate == 0)%Q -> (fmin room rate == 0)%Q.
Proof.
  intros Hroom Hrate. unfold fmin.
  destruct (Q.min_spec room rate) as [[Hlt ->]|[Hle ->]]; lra.
Qed.

Section RunCharging.

Context {libm : Libm}.
Variable G : Globals.

Lemma charge_price_nonneg (a : Activity) :
  (0 <= snd (get_charge_rate_and_price G a))%Q.
Proof.
  unfold get_charge_rate_and_price.
  destruct (charge_mode a) as [|[[[]|[]|]|[[]|[]|]|]|]; simpl;
    try discriminate.
  destruct (activity_type a =? 0); discriminate.
Qed.

Lemma charge_rate_zero_below_an_hour (a : Activity) :
  0 <= time_interval G < 60 ->
  (fst (get_charge_rate_and_price G a) == 0)%Q.
Proof.
  intros H.
  destruct (charge_rates_zero_below_an_hour G H) as (Hs & Hf & Hr).
  unfold get_charge_rate_and_price.
  destruct (charge_mode a) as [|[[[]|[]|]|[[]|[]|]|]|]; simpl;
    auto; reflexivity.
Qed.

Lemma tou_factor_nonneg (t : Z) : (0 <= get_tou_factor G t)%Q.
Proof.
  unfold get_tou_factor. cbv zeta.
  destruct (_ && _); [discriminate|].
  destruct (_ || _); discriminate.
Qed.

(** X14: while the time interval is shorter than an hour, no label of a
    run has gained any charge or paid anything: its state of charge is the
    one at the start of the activity, its [delta_soc] and its charge cost
    are 0.  The quotient [time_interval / 60] of two [int]s makes every
    charge rate 0. *)
Theorem no_charge_below_an_hour (L : Label) :
  0 <= time_interval G < 60 ->
  (initial_soc G <= 1)%Q ->
  reachable G L ->
  (current_soc L == soc_at_activity_start L)%Q
  /\ (delta_soc L == 0)%Q
  /\ (charge_cost L == 0)%Q
  /\ (current_soc L <= 1)%Q.
Proof.
  intros Hti Hinit Hreach.
  induction Hreach as [dawn _|L a _ IH _ _].
  - simpl. repeat split; try reflexivity. exact Hinit.
  - destruct IH as (Hsoc & _ & Hcost & Hle).
    pose proof (charge_rate_zero_below_an_hour a Hti) as Hrate.
    destruct (Z.eq_dec (id a) (act_id L)) as [Hid|Hid].
    + destruct (continuation_charging_fields G L a Hid)
        as (_ & -> & -> & -> & ->).
      assert (fmin (soc_full - current_soc L)
                (fst (get_charge_rate_and_price G a)) == 0)%Q as Hdelta
        by (apply fmin_zero_rate; [unfold soc_full; lra | exact Hrate]).
      destruct (is_charging a && negb (Qle_bool soc_full (current_soc L)));
        repeat split; try rewrite Hdelta; try lra.
    + pose proof (energy_consumed_soc_nonneg (act L) a) as He.
      destruct (transition_fields G L a Hid)
        as (_ & _ & _ & -> & -> & -> & ->).
      assert (fmin (soc_full
                    - (current_soc L - energy_consumed_soc (act L) a))
                (fst (get_charge_rate_and_price G a)) == 0)%Q as Hdelta
        by (apply fmin_zero_rate; [unfold soc_full; lra | exact Hrate]).
      destruct (is_charging a); repeat split; try rewrite Hdelta; try lra.
Qed.

(** One step never lowers the cumulative charge cost. *)
Lemma step_charge_cost (L : Label) (a : Activity) :
  0 <= time_interval G ->
  (current_soc L <= 1)%Q ->
  (charge_cost L <= charge_cost (update_label_from_activity G L a))%Q.
Proof.
  intros Hti Hle.
  pose proof (charge_rate_nonneg G a Hti) as Hrate.
  pose proof (charge_price_nonneg a) as Hprice.
  assert (forall room t,
             (0 <= room)%Q ->
             (0 <= snd (get_charge_rate_and_price G a) * get_tou_factor G t
                   * (fmin room (fst (get_charge_rate_and_price G a))
                      * battery_capacity))%Q) as Hcost.
  { intros room t Hroom.
    destruct (fmin_bounds room _ Hroom Hrate) as [Hd _].
    apply Qmult_le_0_compat.
    - apply Qmult_le_0_compat; [exact Hprice | apply tou_factor_nonneg].
    - apply Qmult_le_0_compat; [exact Hd | discriminate]. }
  destruct (Z.eq_dec (id a) (act_id L)) as [Hid|Hid].
  - destruct (continuation_charging_fields G L a Hid)
      as (_ & _ & _ & _ & ->).
    destruct (is_charging a && negb (Qle_bool soc_full (current_soc L)));
      [|apply Qle_refl].
    specialize (Hcost (soc_full - current_soc L)%Q
                  (time L + time_interval G)).
    unfold soc_full in *. lra.
  - pose proof (energy_consumed_soc_nonneg (act L) a) as He.
    destruct (transition_fields G L a Hid)
      as (_ & _ & _ & _ & _ & _ & ->).
    destruct (is_charging a); [|apply Qle_refl].
    specialize (Hcost (soc_full
                       - (current_soc L - energy_consumed_soc (act L) a))%Q
                  (start_time (update_label_from_activity G L a))).
    unfold soc_full in *. lra.
Qed.

(** X15: with an initial state of charge between 0 and 1 and a time
    interval that is not negative, the cumulative charge cost of a label of
    a run is not negative and not below the cost of its predecessor. *)
Theorem charge_cost_never_decreases (L : Label) :
  (0 <= initial_soc G)%Q /\ (initial_soc G <= 1)%Q ->
  0 <= time_interval G ->
  reachable G L ->
  (0 <= charge_cost L)%Q
  /\ (forall p, previous L = Some p -> (charge_cost p <= charge_cost L)%Q).
Proof.
  intros Hinit Hti Hreach.
  induction Hreach as [dawn _|L a Hreach IH _ Hfeas].
  - simpl. split; [apply Qle_refl | discriminate].
  - destruct IH as [Hpos _].
    destruct (reachable_soc G L Hinit Hti Hreach) as [_ Hle].
    pose proof (step_charge_cost L a Hti Hle) as Hstep.
    split; [apply (Qle_trans _ _ _ Hpos Hstep)|].
    intros p Hp. destruct (update_act G L a) as (_ & _ & Hprev).
    rewrite Hprev in Hp. injection Hp as <-. exact Hstep.
Qed.

End RunCharging.

Lemma no_charge_below_an_hour_witness :
  let G := Examples.dawn_work_dusk in
  let L := update_label_from_activity (libm := isqrt_libm) G Examples.seed
             Examples.work in
  0 <= time_interval G < 60 /\ (initial_soc G <= 1)%Q
  /\ (charge_cost L == 0)%Q.
Proof.
  assert (0 <= time_interval Examples.dawn_work_dusk < 60) as Hti
    by (split; [discriminate | reflexivity]).
  assert (initial_soc Examples.dawn_work_dusk <= 1)%Q as Hinit
    by discriminate.
  split; [exact Hti|]. split; [exact Hinit|].
  refine (proj1 (proj2 (proj2
           (no_charge_below_an_hour (libm := isqrt_libm)
              Examples.dawn_work_dusk _ Hti Hinit _)))).
  apply reachable_step;
    [apply reachable_seed; reflexivity | right; left; reflexivity
     | vm_compute; reflexivity].
Defined.

Lemma charge_cost_never_decreases_witness :
  let G := Examples.dawn_charge_dusk in
  ((0 <= initial_soc G)%Q /\ (initial_soc G <= 1)%Q)
  /\ 0 <= time_interval G
  /\ (0 <= charge_cost Examples.charging_2)%Q
  /\ (charge_cost Examples.charging_1 <= charge_cost Examples.charging_2)%Q.
Proof.
  assert ((0 <= initial_soc Examples.dawn_charge_dusk)%Q
          /\ (initial_soc Examples.dawn_charge_dusk <= 1)%Q) as Hinit
    by (split; discriminate).
  assert (0 <= time_interval Examples.dawn_charge_dusk) as Hti
    by discriminate.
  split; [exact Hinit|]. split; [exact Hti|].
  destruct (charge_cost_never_decreases (libm := isqrt_libm)
              Examples.dawn_charge_dusk Examples.charging_2 Hinit Hti
              example_run_reachable) as [Hpos Hprev].
  split; [exact Hpos|]. apply Hprev. reflexivity.
Defined.

(** ** Insertion into a bucket cell *)

Lemma dominance_pass_unfold (L1 element : Label) (has_prev : bool)
  (next : cell) (relinked : bool) :
  dominance_pass L1 element has_prev next relinked
  = if negb (not_dominated_by L1 element) then
      match next with
      | [] => if has_prev then None else Some [(L1, false)]
      | (e2, _) :: rest =>
          if has_prev then dominance_pass L1 e2 true rest false
          else dominance_pass L1 e2 false rest true
      end
    else if negb (not_dominated_by element L1) then
      Some ((element, has_prev) :: relink next relinked)
    else
      match next with
      | [] => Some [(element, has_prev); (L1, false)]
      | (e2, p2) :: rest =>
          match dominance_pass L1 e2 (p2 || relinked) rest false with
          | Some c => Some ((element, has_prev) :: c)
          | None => None
          end
      end.
Proof. destruct next as [|[e2 p2] rest]; reflexivity. Qed.

Lemma not_dominated_by_true (L1 element : Label) :
  not_dominated_by L1 element = true
  <-> dominates (Some L1) (Some element) = 0.
Proof. unfold not_dominated_by. apply Z.eqb_eq. Qed.

Lemma not_dominated_by_false (L1 element : Label) :
  not_dominated_by L1 element = false
  <-> dominates (Some L1) (Some element) <> 0.
Proof. unfold not_dominated_by. apply Z.eqb_neq. Qed.

#[local] Opaque not_dominated_by.

Lemma dominance_pass_result (L1 : Label) (next : cell) :
  forall (element : Label) (has_prev relinked : bool) (c' : cell),
    dominance_pass L1 element has_prev next relinked = Some c' ->
    (labels_of c'
     = filter (not_dominated_by L1) (element :: labels_of next) ++ [L1]
     /\ Forall (fun e => dominates (Some e) (Some L1) = 0)
          (filter (not_dominated_by L1) (element :: labels_of next)))
    \/ (exists pre e post,
          element :: labels_of next = pre ++ e :: post
          /\ not_dominated_by L1 e = true
          /\ dominates (Some e) (Some L1) <> 0
          /\ labels_of c' = filter (not_dominated_by L1) pre ++ e :: post).
Proof.
  unfold labels_of.
  induction next as [|[e2 p2] rest IH]; intros element has_prev relinked c';
    rewrite dominance_pass_unfold; cbn [filter map fst];
    destruct (not_dominated_by L1 element) eqn:E1; cbn [negb].
  - destruct (not_dominated_by element L1) eqn:E2; cbn [negb];
      intros [= <-].
    + left. split; [reflexivity|]. repeat constructor.
      apply not_dominated_by_true. exact E2.
    + right. exists [], element, [].
      split; [reflexivity|]. split; [exact E1|].
      split; [apply not_dominated_by_false; exact E2 | reflexivity].
  - destruct has_prev; [discriminate|]. intros [= <-]. left.
    split; [reflexivity | constructor].
  - destruct (not_dominated_by element L1) eqn:E2; cbn [negb].
    + destruct (dominance_pass L1 e2 (p2 || relinked) rest false)
        as [c|] eqn:E; [|discriminate].
      intros [= <-]. cbn [map fst].
      destruct (IH _ _ _ _ E)
        as [[Heq Hall]|(pre & e & post & H1 & H2 & H3 & H4)].
      * left. cbn [filter map fst] in Heq, Hall. rewrite Heq.
        split; [reflexivity|]. constructor; [|exact Hall].
        apply not_dominated_by_true. exact E2.
      * right. exists (element :: pre), e, post. cbn [filter map fst] in H1.
        cbn [filter app]. rewrite E1, H1, H4. auto.
    + intros [= <-]. right.
      exists [], element, (map fst ((e2, p2) :: rest)).
      split; [reflexivity|]. split; [exact E1|].
      split; [apply not_dominated_by_false; exact E2|].
      simpl. reflexivity.
  - intros H.
    assert (exists hp rl, dominance_pass L1 e2 hp rest rl = Some c')
      as (hp & rl & H') by (destruct has_prev; eauto).
    destruct (IH _ _ _ _ H')
      as [[Heq Hall]|(pre & e & post & H1 & H2 & H3 & H4)].
    + left. auto.
    + right. exists (element :: pre), e, post. cbn [filter map fst] in H1.
      cbn [filter app]. rewrite E1, H1. auto.
Qed.

#[local] Transparent not_dominated_by.

(** X16: what the insertion of [L1] into a cell leaves, when it reads no
    freed node.  Either [L1] is the last label of the cell, after the
    earlier labels that [L1] does not dominate, in their order, none of
    which dominates [L1]; or [L1] is discarded: the cell held a label that
    [L1] does not dominate and that dominates [L1], and keeps it, with the
    labels after it and the labels before it that [L1] does not
    dominate. *)
Theorem insert_label_result (L1 : Label) (c c' : cell) :
  insert_label L1 c = Some c' ->
  (labels_of c' = filter (not_dominated_by L1) (labels_of c) ++ [L1]
   /\ Forall (fun e => dominates (Some e) (Some L1) = 0)
        (filter (not_dominated_by L1) (labels_of c)))
  \/ (exists pre e post,
        labels_of c = pre ++ e :: post
        /\ not_dominated_by L1 e = true
        /\ dominates (Some e) (Some L1) <> 0
        /\ labels_of c' = filter (not_dominated_by L1) pre ++ e :: post).
Proof.
  unfold insert_label. destruct c as [|[element has_prev] next].
  - intros [= <-]. left. split; [reflexivity | constructor].
  - intros H. apply (dominance_pass_result _ _ _ _ _ _ H).
Qed.

(** X17: a read of a freed node.  In a cell of three nodes with [NULL]
    [previous] pointers, when [L1] dominates the first and the third label
    but neither dominates the second nor is dominated by it,
    [remove_label] frees the third node and returns [NULL], and the DP then
    reads the [element] of that node. *)
Theorem insert_label_reads_freed_node (L1 A B C : Label) :
  dominates (Some L1) (Some A) <> 0 ->
  dominates (Some L1) (Some B) = 0 ->
  dominates (Some B) (Some L1) = 0 ->
  dominates (Some L1) (Some C) <> 0 ->
  insert_label L1 [(A, false); (B, false); (C, false)] = None.
Proof.
  intros HA HB HB' HC. unfold insert_label. cbn [dominance_pass].
  apply Z.eqb_neq in HA, HC. rewrite HA, HB, HB', HC. reflexivity.
Qed.

Lemma insert_label_result_witness :
  let L1 := Examples.at_dawn_with 2 [0] in
  let c := [(Examples.at_dawn_with 1 [0], false);
            (Examples.at_dawn_with 1 [0; 5], false)] in
  insert_label L1 c = Some [(Examples.at_dawn_with 1 [0; 5], false); (L1, false)]
  /\ (labels_of [(Examples.at_dawn_with 1 [0; 5], false); (L1, false)]
      = filter (not_dominated_by L1) (labels_of c) ++ [L1]
      \/ exists pre e post,
           labels_of c = pre ++ e :: post
           /\ not_dominated_by L1 e = true
           /\ dominates (Some e) (Some L1) <> 0
           /\ labels_of [(Examples.at_dawn_with 1 [0; 5], false); (L1, false)]
              = filter (not_dominated_by L1) pre ++ e :: post).
Proof.
  assert (insert_label (Examples.at_dawn_with 2 [0])
            [(Examples.at_dawn_with 1 [0], false);
             (Examples.at_dawn_with 1 [0; 5], false)]
          = Some [(Examples.at_dawn_with 1 [0; 5], false);
                  (Examples.at_dawn_with 2 [0], false)]) as H
    by (vm_compute; reflexivity).
  split; [exact H|].
  destruct (insert_label_result _ _ _ H) as [[Heq _]|Hdom];
    [left; exact Heq | right; exact Hdom].
Defined.

Lemma insert_label_reads_freed_node_witness :
  let L1 := Examples.at_dawn_with 2 [0] in
  let A := Examples.at_dawn_with 1 [0] in
  let B := Examples.at_dawn_with 1 [0; 5] in
  let C := Examples.at_dawn_with 0 [0] in
  dominates (Some L1) (Some A) <> 0
  /\ dominates (Some L1) (Some B) = 0
  /\ dominates (Some B) (Some L1) = 0
  /\ dominates (Some L1) (Some C) <> 0
  /\ insert_label L1 [(A, false); (B, false); (C, false)] = None.
Proof.
  assert (dominates (Some (Examples.at_dawn_with 2 [0]))
            (Some (Examples.at_dawn_with 1 [0])) <> 0) as HA
    by (vm_compute; discriminate).
  assert (dominates (Some (Examples.at_dawn_with 2 [0]))
            (Some (Examples.at_dawn_with 1 [0; 5])) = 0) as HB
    by reflexivity.
  assert (dominates (Some (Examples.at_dawn_with 1 [0; 5]))
            (Some (Examples.at_dawn_with 2 [0])) = 0) as HB'
    by reflexivity.
  assert (dominates (Some (Examples.at_dawn_with 2 [0]))
            (Some (Examples.at_dawn_with 0 [0])) <> 0) as HC
    by (vm_compute; discriminate).
  split; [exact HA|]. split; [exact HB|]. split; [exact HB'|].
  split; [exact HC|].
  exact (insert_label_reads_freed_node _ _ _ _ HA HB HB' HC).
Defined.

(** ** The bucket after [DP] *)

Lemma find_best_In (B : L_list) (L : Label) :
  find_best B = Some L -> In L B.
Proof.
  unfold find_best. destruct B as [|element next]; simpl; [discriminate|].
  intros H. destruct (find_best_loop_max _ _ _ H) as ([->|Hin] & _); auto.
Qed.

Section BucketIndex.

Context {libm : Libm}.
Variable G : Globals.

#[local] Opaque is_feasible update_label_from_activity insert_label in_bucket.

Lemma set_cell_indexed (b : Bucket) (t i : Z) (c : cell) :
  bucket_indexed G b ->
  (forall L, In L (labels_of c) ->
             time L = t /\ activity_at G i = Some (act L)) ->
  bucket_indexed G (set_cell b t i c).
Proof.
  intros Hb Hc t' i' L. unfold set_cell.
  destruct (Z.eqb_spec t' t) as [->|]; [|apply Hb].
  destruct (Z.eqb_spec i' i) as [->|]; [apply Hc | apply Hb].
Qed.

Lemma extend_loop_indexed (L : Label) (h act_index : Z)
  (acts : list Activity) :
  forall (a1 : Z) (b b' : Bucket),
    0 <= a1 ->
    (forall k a, nth_error acts k = Some a ->
                 nth_error (activities G) (Z.to_nat a1 + k) = Some a) ->
    bucket_indexed G b ->
    extend_loop G L h act_index acts a1 b = Some b' ->
    bucket_indexed G b'.
Proof.
  induction acts as [|a rest IH]; intros a1 b b' Ha1 Hnth Hb; simpl.
  - intros [= <-]. exact Hb.
  - assert (forall k a', nth_error rest k = Some a' ->
                         nth_error (activities G) (Z.to_nat (a1 + 1) + k)
                         = Some a') as Hrest.
    { intros k a' Hk. replace (Z.to_nat (a1 + 1) + k)%nat
        with (Z.to_nat a1 + S k)%nat by lia.
      apply Hnth. exact Hk. }
    destruct (is_feasible G (Some L) a); [|apply IH; auto; lia].
    destruct (in_bucket G (time (update_label_from_activity G L a)) a1
              && negb ((time (update_label_from_activity G L a) =? h)
                       && (a1 =? act_index))); [|discriminate].
    destruct (insert_label (update_label_from_activity G L a)
                (b (time (update_label_from_activity G L a)) a1))
      as [c|] eqn:Hins; [|discriminate].
    apply IH; [lia | exact Hrest|].
    apply set_cell_indexed; [exact Hb|].
    intros L' HL'.
    destruct (insert_label_labels _ _ _ Hins L' HL') as [->|Hold].
    + split; [reflexivity|].
      destruct (update_act G L a) as (-> & _).
      unfold activity_at. destruct (Z.ltb_spec a1 0); [lia|].
      specialize (Hnth O a eq_refl). rewrite Nat.add_0_r in Hnth.
      exact Hnth.
    + apply (Hb _ _ _ Hold).
Qed.

Lemma scanned_activities_nth (k : nat) (a : Activity) :
  nth_error (scanned_activities G) k = Some a ->
  nth_error (activities G) (Z.to_nat 0 + k) = Some a.
Proof.
  unfold scanned_activities. rewrite nth_error_firstn. simpl.
  destruct (Nat.ltb k (Z.to_nat (num_activities G))); [auto | discriminate].
Qed.

Lemma scan_cell_indexed (labels : list Label) (h act_index : Z) :
  forall (b b' : Bucket),
    bucket_indexed G b ->
    scan_cell G labels h act_index b = Some b' ->
    bucket_indexed G b'.
Proof.
  induction labels as [|L rest IH]; intros b b' Hb; simpl.
  - intros [= <-]. exact Hb.
  - destruct (extend_loop G L h act_index (scanned_activities G) 0 b)
      as [b1|] eqn:E; [|discriminate].
    apply IH.
    apply (extend_loop_indexed L h act_index (scanned_activities G) 0 b b1);
      [lia | apply scanned_activities_nth | exact Hb | exact E].
Qed.

Lemma activity_loop_indexed (n : nat) (h : Z) :
  forall (act_index : Z) (b b' : Bucket),
    bucket_indexed G b ->
    activity_loop G n act_index h b = Some b' ->
    bucket_indexed G b'.
Proof.
  induction n as [|n IH]; intros act_index b b' Hb; simpl.
  - intros [= <-]. exact Hb.
  - destruct (scan_cell G (map fst (b h act_index)) h act_index b)
      as [b1|] eqn:E; [|discriminate].
    apply IH. apply (scan_cell_indexed _ h act_index b b1 Hb E).
Qed.

Lemma time_loop_indexed (n : nat) :
  forall (h : Z) (b b' : Bucket),
    bucket_indexed G b ->
    time_loop G n h b = Some b' ->
    bucket_indexed G b'.
Proof.
  induction n as [|n IH]; intros h b b' Hb; simpl.
  - intros [= <-]. exact Hb.
  - destruct (activity_loop G (Z.to_nat (num_activities G)) 0 h b)
      as [b1|] eqn:E; [|discriminate].
    apply IH. apply (activity_loop_indexed _ h 0 b b1 Hb E).
Qed.

#[local] Transparent is_feasible update_label_from_activity insert_label
  in_bucket.

(** X18: after a run of [DP], every label of [bucket[t][i]] has the time
    [t] and points to [activities[i]]; so the label that [find_best] takes
    from the last cell is at the last slot of the horizon and at the last
    activity. *)
Theorem DP_bucket_indexed (b : Bucket) :
  DP G = Some b ->
  bucket_indexed G b
  /\ forall L, best_of G b = Some L ->
               time L = horizon G - 1
               /\ activity_at G (max_num_activities G - 1) = Some (act L).
Proof.
  intros Hdp.
  assert (bucket_indexed G b) as Hb.
  { revert Hdp. unfold DP.
    destruct (activities G) as [|dawn acts] eqn:Hacts; [discriminate|].
    destruct (in_bucket G (time (create_label G dawn)) 0
              && (num_activities G <=? Z.of_nat (length (dawn :: acts)))
              && (num_activities G <=? max_num_activities G));
      [|discriminate].
    apply time_loop_indexed. apply set_cell_indexed.
    - intros t i L [].
    - intros L [<-|[]]. split; [reflexivity|].
      unfold activity_at. rewrite Hacts. reflexivity. }
  split; [exact Hb|].
  intros L HL. apply Hb. unfold best_of in HL.
  apply find_best_In. exact HL.
Qed.

End BucketIndex.

Lemma home_day_DP_defined :
  { b | DP (libm := isqrt_libm) (Examples.home_day []) = Some b }.
Proof.
  destruct (DP (libm := isqrt_libm) (Examples.home_day [])) as [b|] eqn:E.
  - exists b. reflexivity.
  - exfalso. pose proof (home_day_best []) as H. rewrite E in H.
    discriminate H.
Defined.

Lemma DP_bucket_indexed_witness :
  exists b,
    DP (libm := isqrt_libm) (Examples.home_day []) = Some b
    /\ bucket_indexed (Examples.home_day []) b.
Proof.
  destruct home_day_DP_defined as [b Hb]. exists b.
  split; [exact Hb|].
  exact (proj1 (DP_bucket_indexed (libm := isqrt_libm)
                  (Examples.home_day []) b Hb)).
Defined.

(** ** What [is_feasible] never accepts *)

Section NeverFeasible.

Context {libm : Libm}.
Variable G : Globals.

Lemma feasible_same_rejects (L : Label) (a : Activity) :
  (is_service_station a = true /\ is_charging a = false)
  \/ (is_charging a = true /\ charge_mode a = 0) ->
  feasible_same G L a = false.
Proof.
  unfold feasible_same. intros [[Hs Hc]|[Hc Hm]]; rewrite ?Hs, Hc, ?Hm;
    simpl; destruct (max_duration a <? duration L + 1); reflexivity.
Qed.

Lemma feasible_other_rejects (L : Label) (a dusk : Activity) :
  (is_service_station a = true /\ is_charging a = false)
  \/ (is_charging a = true /\ charge_mode a = 0)
  \/ act_id L = num_activities G - 1
  \/ (exists p, previous L = Some p /\ act_id p = id a) ->
  feasible_other G L a dusk = false.
Proof.
  unfold feasible_other, previous_is.
  intros [[Hs Hc]|[[Hc Hm]|[Hlast|(p & Hp & Hpid)]]].
  - rewrite Hs, Hc. simpl.
    repeat match goal with
           | |- (if ?c then _ else _) = false => destruct c; try reflexivity
           end.
  - rewrite Hc, Hm. simpl.
    repeat match goal with
           | |- (if ?c then _ else _) = false => destruct c; try reflexivity
           end.
  - apply Z.eqb_eq in Hlast. rewrite Hlast.
    destruct (match previous L with
              | Some p => act_id p =? id a
              | None => false
              end); reflexivity.
  - rewrite Hp. apply Z.eqb_eq in Hpid. rewrite Hpid. reflexivity.
Qed.

(** X19: [is_feasible] answers 0 for a service station that does not
    charge, for a charging activity in charge mode 0, for activity 0 after
    a label of another activity, and, when the activity is not the label's
    own, after the last activity or when the label before was at this
    activity. *)
Theorem never_feasible (L : Label) (a : Activity) :
  (is_service_station a = true /\ is_charging a = false)
  \/ (is_charging a = true /\ charge_mode a = 0)
  \/ (act_id L <> 0 /\ id a = 0)
  \/ (id a <> act_id L /\ act_id L = num_activities G - 1)
  \/ (id a <> act_id L /\ exists p, previous L = Some p /\ act_id p = id a) ->
  is_feasible G (Some L) a = false.
Proof.
  intros H. unfold is_feasible.
  destruct (negb (act_id L =? 0) && (id a =? 0)) eqn:E0; [reflexivity|].
  destruct (Z.eqb_spec (act_id L) (id a)) as [Hsame|Hother].
  - destruct H as [H|[H|[[H0 Ha]|[[Hid _]|[Hid _]]]]].
    + apply feasible_same_rejects. auto.
    + apply feasible_same_rejects. auto.
    + congruence.
    + congruence.
    + congruence.
  - destruct (activity_at G (num_activities G - 1)) as [dusk|];
      [|reflexivity].
    destruct H as [H|[H|[[H0 Ha]|[[_ Hlast]|[_ Hp]]]]].
    + apply feasible_other_rejects. auto.
    + apply feasible_other_rejects. auto.
    + apply Z.eqb_neq in H0. apply Z.eqb_eq in Ha.
      rewrite H0, Ha in E0. discriminate E0.
    + apply feasible_other_rejects. auto.
    + apply feasible_other_rejects. auto.
Qed.

End NeverFeasible.

Lemma never_feasible_witness :
  let G := Examples.home_day [] in
  (is_service_station Examples.day_station = true
   /\ is_charging Examples.day_station = false)
  /\ is_feasible (libm := isqrt_libm) G (Some Examples.day_seed)
       Examples.day_station = false.
Proof.
  assert (is_service_station Examples.day_station = true
          /\ is_charging Examples.day_station = false) as H
    by (split; reflexivity).
  split; [exact H|].
  exact (never_feasible (libm := isqrt_libm) (Examples.home_day [])
           Examples.day_seed Examples.day_station (or_introl H)).
Defined.

(** ** Time of use *)

(** X20: when the time interval divides the hour into [k] slots, the
    time-of-use factor of a slot [t >= 0] is the peak factor from slot
    [12 k] to slot [18 k - 1], the mid-peak factor from [8 k] to [12 k - 1]
    and from [18 k] to [21 k - 1], and the off-peak factor in the rest of
    the day. *)
Theorem tou_factor_by_slot (G : Globals) (k t : Z) :
  0 < k ->
  60 = time_interval G * k ->
  0 <= t ->
  get_tou_factor G t
  = if (12 * k <=? t) && (t <? 18 * k) then tou_peak_factor
    else if ((8 * k <=? t) && (t <? 12 * k))
            || ((18 * k <=? t) && (t <? 21 * k))
         then tou_midpeak_factor
    else tou_offpeak_factor.
Proof.
  intros Hk H60 Ht. unfold get_tou_factor. cbv zeta.
  assert (0 < time_interval G) as Hti by nia.
  assert (Z.quot (t * time_interval G) 60 = t / k) as ->.
  { rewrite Z.quot_div_nonneg by nia.
    rewrite H60, (Z.mul_comm (time_interval G) k).
    apply Z.div_mul_cancel_r; lia. }
  pose proof (Z.mul_div_le t k Hk) as Hlo.
  pose proof (Z.mul_succ_div_gt t k Hk) as Hhi.
  unfold peak_start, peak_end, midpeak1_start, midpeak1_end,
    midpeak2_start, midpeak2_end.
  assert (forall n, (n <=? t / k) = (n * k <=? t)) as Hle.
  { intros n. destruct (Z.leb_spec n (t / k)), (Z.leb_spec (n * k) t);
      try reflexivity; nia. }
  assert (forall n, (t / k <? n) = (t <? n * k)) as Hlt.
  { intros n. destruct (Z.ltb_spec (t / k) n), (Z.ltb_spec t (n * k));
      try reflexivity; nia. }
  rewrite !Hle, !Hlt. reflexivity.
Qed.

Lemma tou_factor_by_slot_witness :
  let G := Examples.dawn_work_dusk in
  0 < 12 /\ 60 = time_interval G * 12 /\ 0 <= 150
  /\ get_tou_factor G 150 = tou_peak_factor.
Proof.
  assert (0 < 12) as Hk by reflexivity.
  assert (60 = time_interval Examples.dawn_work_dusk * 12) as H60
    by reflexivity.
  assert (0 <= 150) as Ht by discriminate.
  split; [exact Hk|]. split; [exact H60|]. split; [exact Ht|].
  rewrite (tou_factor_by_slot Examples.dawn_work_dusk 12 150 Hk H60 Ht).
  reflexivity.
Defined.

(** ** Travel time in minutes *)

(** X21: with a positive speed and time interval, the travel time in
    slots covers the whole minutes of the trip and exceeds them by less
    than one slot. *)
Theorem travel_time_covers_minutes {libm : Libm} (G : Globals)
  (a b : Activity) :
  (0 < speed G)%Q ->
  0 < time_interval G ->
  let minutes := int_of_double (distance_x a b / speed G) in
  minutes <= travel_time G a b * time_interval G
  /\ travel_time G a b * time_interval G < minutes + time_interval G.
Proof.
  intros Hs Hti minutes.
  rewrite (travel_time_ceiling G a b); [|lia]. fold minutes.
  set (q := (inject_Z minutes / inject_Z (time_interval G))%Q).
  assert (0 < inject_Z (time_interval G))%Q as Hq
    by (change 0%Q with (inject_Z 0); rewrite <- Zlt_Qlt; exact Hti).
  assert (q * inject_Z (time_interval G) == inject_Z minutes)%Q as Hmul.
  { unfold q. field. intros Hc. rewrite Hc in Hq. discriminate Hq. }
  pose proof (Qle_ceiling q) as Hup.
  pose proof (Qceiling_lt q) as Hdown.
  apply (Qmult_le_compat_r _ _ (inject_Z (time_interval G))) in Hup;
    [|apply Qlt_le_weak; exact Hq].
  apply (Qmult_lt_compat_r _ _ (inject_Z (time_interval G))) in Hdown;
    [|exact Hq].
  rewrite Hmul in Hup, Hdown.
  rewrite <- inject_Z_mult in Hup, Hdown.
  rewrite <- Zle_Qle in Hup. rewrite <- Zlt_Qlt in Hdown.
  split; [exact Hup | lia].
Qed.

Lemma travel_time_covers_minutes_witness :
  let G := Examples.dawn_work_dusk in
  (0 < speed G)%Q /\ 0 < time_interval G
  /\ int_of_double
       (distance_x (libm := isqrt_libm) Examples.dawn Examples.corner_shop
        / speed G)
     <= travel_time (libm := isqrt_libm) G Examples.dawn Examples.corner_shop
        * time_interval G.
Proof.
  assert (0 < speed Examples.dawn_work_dusk)%Q as Hs by reflexivity.
  assert (0 < time_interval Examples.dawn_work_dusk) as Hti by reflexivity.
  split; [exact Hs|]. split; [exact Hti|].
  exact (proj1 (travel_time_covers_minutes (libm := isqrt_libm)
                  Examples.dawn_work_dusk Examples.dawn Examples.corner_shop
                  Hs Hti)).
Defined.

(** ** The parameter arrays *)

(** X22: [set_general_parameters] copies five entries of each parameter
    array and no more: two calls whose arrays agree on their first five
    entries leave the same globals, whatever the arrays hold from index 5
    on (the entries of the activity types 5, 6 and 7). *)
Theorem set_general_parameters_copies_five (G : Globals) (pyhorizon : Z)
  (pyspeed pytravel_time_penalty : Q) (pytime_interval : Z)
  (asc early late longp shortp asc' early' late' longp' shortp' : list Q) :
  firstn 5 asc = firstn 5 asc' ->
  firstn 5 early = firstn 5 early' ->
  firstn 5 late = firstn 5 late' ->
  firstn 5 longp = firstn 5 longp' ->
  firstn 5 shortp = firstn 5 shortp' ->
  set_general_parameters G pyhorizon pyspeed pytravel_time_penalty
    pytime_interval asc early late longp shortp
  = set_general_parameters G pyhorizon pyspeed pytravel_time_penalty
      pytime_interval asc' early' late' longp' shortp'
  /\ length (asc_parameters
               (set_general_parameters G pyhorizon pyspeed
                  pytravel_time_penalty pytime_interval asc early late longp
                  shortp)) = 5%nat.
Proof.
  assert (forall l l' : list Q,
             firstn 5 l = firstn 5 l' ->
             copy_parameters l = copy_parameters l') as Hcopy.
  { intros l l' H. unfold copy_parameters.
    apply map_ext_in. intros i Hi.
    assert (forall m : list Q, nth i m 0%Q = nth i (firstn 5 m) 0%Q) as E.
    { intros m. rewrite nth_firstn. simpl in Hi.
      destruct Hi as [<-|[<-|[<-|[<-|[<-|[]]]]]]; reflexivity. }
    rewrite (E l), (E l'), H. reflexivity. }
  intros Ha He Hl Hlo Hsh. unfold set_general_parameters.
  rewrite (Hcopy _ _ Ha), (Hcopy _ _ He), (Hcopy _ _ Hl), (Hcopy _ _ Hlo),
    (Hcopy _ _ Hsh).
  split; reflexivity.
Qed.

Lemma set_general_parameters_copies_five_witness :
  let G := Examples.dawn_work_dusk in
  let asc := asc_parameters G in
  firstn 5 asc = firstn 5 (firstn 5 asc)
  /\ set_general_parameters G 288 500 (1 # 10) 5 asc [] [] [] []
     = set_general_parameters G 288 500 (1 # 10) 5 (firstn 5 asc) [] [] [] [].
Proof.
  assert (firstn 5 (asc_parameters Examples.dawn_work_dusk)
          = firstn 5 (firstn 5 (asc_parameters Examples.dawn_work_dusk)))
    as Ha by reflexivity.
  split; [exact Ha|].
  exact (proj1 (set_general_parameters_copies_five Examples.dawn_work_dusk
                  288 500 (1 # 10) 5 _ [] [] [] [] _ [] [] [] []
                  Ha eq_refl eq_refl eq_refl eq_refl)).
Defined.

(** ** Edge cases of a step *)

Section StepEdges.

Context {libm : Libm}.
Variable G : Globals.

(** X23: in a charge mode other than 2, 3 and 4 the charging kernel gives
    the rate 0 and the price 0, also in the modes 5 and 6 of the header; a
    step at an activity in such a mode, charging or not, leaves the
    cumulative charge cost as it was. *)
Theorem other_modes_charge_nothing (L : Label) (a : Activity) :
  charge_mode a < 2 \/ 4 < charge_mode a ->
  get_charge_rate_and_price G a = (0%Q, 0%Q)
  /\ (charge_cost (update_label_from_activity G L a) == charge_cost L)%Q.
Proof.
  intros Hmode.
  assert (get_charge_rate_and_price G a = (0%Q, 0%Q)) as Hzero.
  { unfold get_charge_rate_and_price.
    destruct (charge_mode a) as [|[[[]|[]|]|[[]|[]|]|]|]; try reflexivity;
      lia. }
  split; [exact Hzero|].
  destruct (Z.eq_dec (id a) (act_id L)) as [Hid|Hid].
  - destruct (continuation_charging_fields G L a Hid)
      as (_ & _ & _ & _ & ->).
    rewrite Hzero. simpl.
    destruct (is_charging a && negb (Qle_bool soc_full (current_soc L)));
      [ring | reflexivity].
  - destruct (transition_fields G L a Hid) as (_ & _ & _ & _ & _ & _ & ->).
    rewrite Hzero. simpl. destruct (is_charging a); [ring | reflexivity].
Qed.

(** X24: the continuation of an activity that neither charges nor is a
    service station is feasible whenever the duration allows one more
    slot: [is_feasible] looks neither at the time of the label nor at the
    horizon.  The successor is [time_interval] later, and lies outside the
    bucket when that is at or beyond the horizon. *)
Theorem continuation_ignores_horizon (L : Label) (a : Activity) :
  id a = act_id L ->
  is_charging a = false ->
  is_service_station a = false ->
  duration L + 1 <= max_duration a ->
  is_feasible G (Some L) a = true
  /\ time (update_label_from_activity G L a) = time L + time_interval G
  /\ (horizon G <= time L + time_interval G ->
      forall i, in_bucket G (time (update_label_from_activity G L a)) i
                = false).
Proof.
  intros Hid Hc Hs Hdur.
  destruct (continuation_fields G L a Hid) as (Htime & _).
  split; [|split; [exact Htime|]].
  - unfold is_feasible. rewrite Hid.
    destruct (act_id L =? 0); simpl; rewrite Z.eqb_refl;
      unfold feasible_same; rewrite Hc, Hs; simpl;
      destruct (Z.ltb_spec (max_duration a) (duration L + 1));
      try reflexivity; lia.
  - intros Hout i. rewrite Htime. unfold in_bucket.
    destruct (Z.ltb_spec (time L + time_interval G) (horizon G)); [lia|].
    rewrite andb_false_r. reflexivity.
Qed.

End StepEdges.

Lemma other_modes_charge_nothing_witness :
  charge_mode Examples.home_slow < 2
  /\ get_charge_rate_and_price Examples.dawn_charge_dusk Examples.home_slow
     = (0%Q, 0%Q).
Proof.
  assert (charge_mode Examples.home_slow < 2) as H by reflexivity.
  split; [exact H|].
  exact (proj1 (other_modes_charge_nothing (libm := isqrt_libm)
                  Examples.dawn_charge_dusk Examples.at_dawn
                  Examples.home_slow (or_introl H))).
Defined.

Lemma continuation_ignores_horizon_witness :
  let G := Examples.dawn_work_dusk in
  let L := Examples.at_dawn_with 0 [0] in
  id Examples.dawn = act_id L
  /\ duration L + 1 <= max_duration Examples.dawn
  /\ is_feasible (libm := isqrt_libm) G (Some L) Examples.dawn = true.
Proof.
  assert (id Examples.dawn = act_id (Examples.at_dawn_with 0 [0])) as Hid
    by reflexivity.
  assert (duration (Examples.at_dawn_with 0 [0]) + 1
          <= max_duration Examples.dawn) as Hdur by discriminate.
  split; [exact Hid|]. split; [exact Hdur|].
  exact (proj1 (continuation_ignores_horizon (libm := isqrt_libm)
                  Examples.dawn_work_dusk (Examples.at_dawn_with 0 [0])
                  Examples.dawn Hid eq_refl eq_refl Hdur)).
Defined.

(** ** [DSSR] finds every repeated group *)

Lemma group_seen_before_true (g : Z) (p2 : Label) :
  forall r, In r (p2 :: earlier p2) -> activity_type (act r) = g ->
            group_seen_before g p2 = true.
Proof.
  induction p2 as [p2 Hp|p2 q Hp IH] using Label_chain_ind; intros r;
    rewrite group_seen_before_unfold, earlier_unfold, Hp;
    destruct (Z.eqb_spec (activity_type (act p2)) g) as [|Hne];
    try reflexivity; intros [<-|Hr] Hg; try congruence.
  - destruct Hr.
  - apply (IH r Hr Hg).
Qed.

Lemma find_cycle_complete (G : Globals) (L : Label) :
  forall p r,
    In p (L :: earlier L) ->
    is_last_activity G p = false ->
    In r (earlier p) ->
    act_id r <> act_id p ->
    group (act r) = group (act p) ->
    exists c g p1, find_cycle G L = Cycle c g p1.
Proof.
  induction L as [L HL|L r0 HL IH] using Label_chain_ind;
    intros p r Hp Hplast Hr Hid Hgroup;
    rewrite find_cycle_unfold, HL; rewrite (earlier_unfold L), HL in Hp.
  - destruct Hp as [<-|[]]. rewrite earlier_unfold, HL in Hr. destruct Hr.
  - destruct (is_last_activity G L) eqn:Elast.
    + destruct Hp as [<-|Hp]; [congruence|].
      apply (IH p r Hp Hplast Hr Hid Hgroup).
    + destruct (match skip_activity (act_id L) L with
                | Some p2 => group_seen_before (activity_type (act L)) p2
                | None => false
                end) eqn:Ecycle; [eauto|].
      destruct Hp as [<-|Hp]; [|apply (IH p r Hp Hplast Hr Hid Hgroup)].
      exfalso.
      assert (In r (L :: earlier L)) as Hr' by (right; exact Hr).
      destruct (skip_activity_keeps (act_id L) L r Hr' Hid)
        as (p2 & Hskip & Hin).
      rewrite Hskip in Ecycle.
      pose proof (group_seen_before_true (activity_type (act L)) p2 r Hin
                    Hgroup) as Hseen.
      rewrite Hseen in Ecycle. discriminate Ecycle.
Qed.

(** X25: [DSSR] returns 1 whenever some label of the chain, not at one of
    the last two activities, has the group of an earlier label of another
    activity; group 0 is no exception, so a home activity in the middle
    of the day, after a dawn of group 0, is always reported. *)
Theorem DSSR_reports_repeated_group (G : Globals) (L p r : Label) :
  In p (L :: earlier L) ->
  is_last_activity G p = false ->
  In r (earlier p) ->
  act_id r <> act_id p ->
  group (act r) = group (act p) ->
  exists acts', DSSR G (Some L) = Some (1, acts').
Proof.
  intros Hp Hplast Hr Hid Hgroup. unfold DSSR.
  destruct (find_cycle_complete G L p r Hp Hplast Hr Hid Hgroup)
    as (c & g & p1 & ->).
  eauto.
Qed.

Lemma DSSR_reports_repeated_group_witness :
  let G := Examples.home_day [] in
  In Examples.day_at_home (Examples.day_end :: earlier Examples.day_end)
  /\ is_last_activity G Examples.day_at_home = false
  /\ In Examples.day_seed (earlier Examples.day_at_home)
  /\ act_id Examples.day_seed <> act_id Examples.day_at_home
  /\ group (act Examples.day_seed) = group (act Examples.day_at_home)
  /\ exists acts', DSSR G (Some Examples.day_end) = Some (1, acts').
Proof.
  assert (In Examples.day_at_home
            (Examples.day_end :: earlier Examples.day_end)) as Hp
    by (right; left; reflexivity).
  assert (is_last_activity (Examples.home_day []) Examples.day_at_home
          = false) as Hlast by reflexivity.
  assert (In Examples.day_seed (earlier Examples.day_at_home)) as Hr
    by (left; reflexivity).
  assert (act_id Examples.day_seed <> act_id Examples.day_at_home) as Hid
    by discriminate.
  assert (group (act Examples.day_seed)
          = group (act Examples.day_at_home)) as Hg by reflexivity.
  split; [exact Hp|]. split; [exact Hlast|]. split; [exact Hr|].
  split; [exact Hid|]. split; [exact Hg|].
  exact (DSSR_reports_repeated_group _ _ _ _ Hp Hlast Hr Hid Hg).
Defined.

(** ** The loop of [main] at convergence *)

Lemma with_activities_same (G : Globals) : with_activities G (activities G) = G.
Proof. destruct G; reflexivity. Qed.

Lemma with_activities_twice (G : Globals) (acts acts' : list Activity) :
  with_activities (with_activities G acts) acts' = with_activities G acts'.
Proof. reflexivity. Qed.

Lemma DSSR_extends (G : Globals) (L : option Label) (cycle : Z)
  (acts' : list Activity) :
  DSSR G L = Some (cycle, acts') ->
  Forall2 extends_memory (activities G) acts'
  /\ (cycle = 0 -> acts' = activities G).
Proof.
  unfold DSSR. destruct L as [L|].
  2:{ intros [= <- <-]. split; [apply Forall2_extends_refl | reflexivity]. }
  destruct (find_cycle G L) as [|c g p1|].
  - intros [= <- <-]. split; [apply Forall2_extends_refl | reflexivity].
  - intros [= <- <-]. split; [|discriminate].
    destruct p1 as [p|]; [|apply Forall2_extends_refl].
    destruct (skip_activity c p) as [p3|]; [|apply Forall2_extends_refl].
    apply add_memory_loop_extends.
  - discriminate.
Qed.

(** X26: when the loop of [main] converges, the final schedule is the best
    label of a run of the DP on activities whose memories extend the
    initial ones by appended nodes, [DSSR] returns 0 on it, and
    [DSSR_count] has grown by the number of runs that were repeated, at
    most the number of turns allowed. *)
Theorem solve_converged {libm : Libm} (fuel : nat) :
  forall (G : Globals) (count : Z) (final_schedule : option Label)
         (DSSR_count : Z),
    solve fuel G count = Converged final_schedule DSSR_count ->
    exists acts' b,
      Forall2 extends_memory (activities G) acts'
      /\ DP (with_activities G acts') = Some b
      /\ best_of (with_activities G acts') b = final_schedule
      /\ DSSR (with_activities G acts') final_schedule = Some (0, acts')
      /\ count <= DSSR_count <= count + Z.of_nat fuel.
Proof.
  induction fuel as [|fuel IH]; intros G count final n; cbn [solve];
    destruct (DP G) as [b|] eqn:Hdp; try discriminate;
    destruct (in_bucket G (horizon G - 1) (max_num_activities G - 1));
    try discriminate;
    destruct (DSSR G (best_of G b)) as [[cycle acts]|] eqn:Hdssr;
    try discriminate;
    destruct (Z.eqb_spec cycle 0) as [->|Hcycle]; try discriminate.
  - intros [= <- <-].
    destruct (DSSR_extends _ _ _ _ Hdssr) as [_ Hsame].
    specialize (Hsame eq_refl). subst acts.
    exists (activities G), b. rewrite with_activities_same.
    split; [apply Forall2_extends_refl|]. repeat split; auto; lia.
  - intros [= <- <-].
    destruct (DSSR_extends _ _ _ _ Hdssr) as [_ Hsame].
    specialize (Hsame eq_refl). subst acts.
    exists (activities G), b. rewrite with_activities_same.
    split; [apply Forall2_extends_refl|]. repeat split; auto; lia.
  - intros H.
    destruct (IH _ _ _ _ H) as (acts' & b' & Hext & Hdp' & Hbest & Hz & Hn).
    destruct (DSSR_extends _ _ _ _ Hdssr) as [Hext0 _].
    rewrite with_activities_twice in Hdp', Hbest, Hz.
    exists acts', b'.
    split; [apply (Forall2_extends_trans _ _ _ Hext0 Hext)|].
    repeat split; auto; lia.
Qed.

Lemma solve_converged_witness :
  exists final_schedule DSSR_count,
    solve (libm := isqrt_libm) 3 Examples.work_day 0
    = Converged final_schedule DSSR_count
    /\ 0 <= DSSR_count <= 0 + Z.of_nat 3.
Proof.
  destruct (solve (libm := isqrt_libm) 3 Examples.work_day 0)
    as [final n|G' n|] eqn:E.
  - exists final, n. split; [reflexivity|].
    destruct (solve_converged (libm := isqrt_libm) 3 Examples.work_day 0
                final n E) as (acts' & b & _ & _ & _ & _ & Hn).
    exact Hn.
  - exfalso. vm_compute in E. discriminate E.
  - exfalso. vm_compute in E. discriminate E.
Defined.

(** ** The memory holds visited groups only *)

Section VisitedGroups.

Context {libm : Libm}.
Variable G : Globals.

(** X27: every group in the memory of a label of a run is 0 or the group
    of the activity of that label or of one of its predecessors: the
    forbidden groups that DSSR records at an activity never put a group
    that was not visited into a label's memory. *)
Theorem memory_holds_visited_groups (L : Label) (g : Z) :
  reachable G L ->
  In g (mem L) ->
  g = 0 \/ exists q, In q (L :: earlier L) /\ group (act q) = g.
Proof.
  intros Hreach. revert g.
  induction Hreach as [dawn _|L a _ IH _ _]; intros g.
  - simpl. intros [<-|[]]. left. reflexivity.
  - rewrite earlier_update.
    destruct (Z.eq_dec (id a) (act_id L)) as [Hid|Hid].
    + destruct (continuation_fields G L a Hid) as (_ & _ & _ & ->).
      intros Hg. destruct (IH g Hg) as [->|(q & Hq & Hgq)]; [left; auto|].
      right. exists q. split; [right; exact Hq | exact Hgq].
    + rewrite (transition_mem G L a Hid).
      intros Hg. apply unionLinkedLists_In in Hg.
      destruct Hg as [[Hg _]| ->].
      * destruct (IH g Hg) as [->|(q & Hq & Hgq)]; [left; auto|].
        right. exists q. split; [right; exact Hq | exact Hgq].
      * right. exists (update_label_from_activity G L a).
        split; [left; reflexivity|].
        destruct (update_act G L a) as (-> & _). reflexivity.
Qed.

End VisitedGroups.

Lemma memory_holds_visited_groups_witness :
  In 6 (mem Examples.charging_2)
  /\ (6 = 0
      \/ exists q, In q (Examples.charging_2 :: earlier Examples.charging_2)
                   /\ group (act q) = 6).
Proof.
  assert (In 6 (mem Examples.charging_2)) as H by (left; reflexivity).
  split; [exact H|].
  exact (memory_holds_visited_groups (libm := isqrt_libm)
           Examples.dawn_charge_dusk Examples.charging_2 6
           example_run_reachable H).
Defined.
